(** * girgaya: the light-cycle arena client

    A shallow embedding of the client's start menu ([StartMenu.handleSubmit]),
    of the adaptive resolution tuner ([PerformanceManager]), of the render
    loop and the network handlers of [GameRenderer], and of
    [GameScene.handleGameStart], followed by the properties the
    specification states about them.

    JavaScript values are modelled as follows.
    - A string is its sequence of UTF-16 code units.
    - A finite [number] is the rational it denotes.  Arithmetic on finite
      numbers rounds its exact result with a rounding function [fl], about
      which only monotonicity and exactness on small integers and on 1/2 are
      assumed (IEEE 754 round-to-nearest has both).  Overflow to an infinity
      and the sign of zero are not modelled.
    - [NaN] and the two infinities are values of [number] of their own.

    The class [MultiplayerManager] and the collision engine, which the
    sources call or the specification describes but whose code is not part
    of the sources, are modelled from the specification; each such
    definition says so. *)

From Stdlib Require Import QArith Qabs Qminmax Qround Lqa ZArith List Sorted Lia String Ascii.
From stdpp Require Import base option list gmap.
Import ListNotations.

(** ** JavaScript values *)

Module JS.

(** A rounding function for binary floating point. *)
Record Rounding := {
  rnd :> Q -> Q;
  rnd_mono : forall a b : Q, (a <= b)%Q -> (rnd a <= rnd b)%Q;
  rnd_int : forall z : Z, (Z.abs z <= 2 ^ 53)%Z -> (rnd (inject_Z z) == inject_Z z)%Q;
  rnd_half : (rnd (1 # 2) == 1 # 2)%Q
}.

(** Arithmetic without rounding error is one such function. *)
Definition exact : Rounding.
Proof.
  refine {| rnd := fun q => q |}.
  - intros a b H; exact H.
  - intros z _; reflexivity.
  - reflexivity.
Defined.

Definition Qltb (a b : Q) : bool := negb (Qle_bool b a).

(** [number]: an IEEE 754 double, up to rounding. *)
Inductive number :=
| NaN
| NegInf
| Fin (q : Q)
| PosInf.

Definition sgn (x : number) : comparison :=
  match x with
  | NaN => Eq
  | NegInf => Lt
  | Fin q => (q ?= 0)%Q
  | PosInf => Gt
  end.

Definition sgn_mul (a b : comparison) : comparison :=
  match a, b with
  | Eq, _ | _, Eq => Eq
  | Lt, Lt | Gt, Gt => Gt
  | _, _ => Lt
  end.

(** The infinity of a given sign; a zero sign stands for [0 * Infinity]. *)
Definition inf_of (s : comparison) : number :=
  match s with
  | Lt => NegInf
  | Eq => NaN
  | Gt => PosInf
  end.

Section Arith.
Variable fl : Rounding.

Definition add (x y : number) : number :=
  match x, y with
  | NaN, _ | _, NaN => NaN
  | Fin a, Fin b => Fin (fl (a + b)%Q)
  | PosInf, NegInf | NegInf, PosInf => NaN
  | PosInf, _ | _, PosInf => PosInf
  | NegInf, _ | _, NegInf => NegInf
  end.

Definition neg (x : number) : number :=
  match x with
  | NaN => NaN
  | NegInf => PosInf
  | Fin q => Fin (- q)%Q
  | PosInf => NegInf
  end.

Definition sub (x y : number) : number := add x (neg y).

Definition mul (x y : number) : number :=
  match x, y with
  | NaN, _ | _, NaN => NaN
  | Fin a, Fin b => Fin (fl (a * b)%Q)
  | _, _ => inf_of (sgn_mul (sgn x) (sgn y))
  end.

(** Division; a zero divisor is taken as +0. *)
Definition div (x y : number) : number :=
  match x, y with
  | NaN, _ | _, NaN => NaN
  | Fin a, Fin b =>
      if Qeq_bool b 0 then inf_of (sgn x) else Fin (fl (a / b)%Q)
  | Fin _, _ => Fin 0
  | _, Fin b => if Qeq_bool b 0 then x else inf_of (sgn_mul (sgn x) (sgn y))
  | _, _ => NaN
  end.
End Arith.

(** [x < y]; false as soon as one side is [NaN]. *)
Definition lt (x y : number) : bool :=
  match x, y with
  | NaN, _ | _, NaN => false
  | Fin a, Fin b => Qltb a b
  | NegInf, NegInf | PosInf, _ | _, NegInf => false
  | NegInf, _ | _, PosInf => true
  end.

Definition gt (x y : number) : bool := lt y x.

(** [Math.abs]. *)
Definition abs (x : number) : number :=
  match x with
  | NaN => NaN
  | Fin q => Fin (Qabs q)
  | _ => PosInf
  end.

(** [Math.max] and [Math.min] of two arguments: [NaN] if either is. *)
Definition max (x y : number) : number :=
  match x, y with
  | NaN, _ | _, NaN => NaN
  | _, _ => if lt x y then y else x
  end.

Definition min (x y : number) : number :=
  match x, y with
  | NaN, _ | _, NaN => NaN
  | _, _ => if lt y x then y else x
  end.

Definition of_Z (z : Z) : number := Fin (inject_Z z).

(** Strings: sequences of UTF-16 code units. *)
Abbreviation code_unit := N (only parsing).
Abbreviation string := (list N) (only parsing).

(** The code units of an ASCII literal. *)
Definition str (s : String.string) : string :=
  List.map N_of_ascii (list_ascii_of_string s).

(** WhiteSpace and LineTerminator code points of ECMAScript, the ones
    [String.prototype.trim] strips. *)
Definition isWhiteSpace (c : code_unit) : bool :=
  ((9 <=? c) && (c <=? 13) || (c =? 32) || (c =? 160) || (c =? 5760)
   || (8192 <=? c) && (c <=? 8202) || (c =? 8232) || (c =? 8233)
   || (c =? 8239) || (c =? 8287) || (c =? 12288) || (c =? 65279))%N.

Fixpoint trimStart (s : string) : string :=
  match s with
  | [] => []
  | c :: s' => if isWhiteSpace c then trimStart s' else s
  end.

Definition trimEnd (s : string) : string := rev (trimStart (rev s)).

Definition trim (s : string) : string := trimEnd (trimStart s).

(** Truthiness of a string: true unless it is empty. *)
Definition truthy (s : string) : bool :=
  match s with
  | [] => false
  | _ => true
  end.

End JS.

(** ** StartMenu.tsx: the start menu *)

Module StartMenu.

(** What submitting the form does: [e.preventDefault()] and, possibly, the
    [onStart] callback. *)
Inductive Effect :=
| PreventDefault
| OnStart (playerName : JS.string).

(** The [maxLength] attribute of the name input. *)
Definition maxLength : nat := 15.

(** [onChange]: the state takes the value of the input element. *)
Definition onChange (value : JS.string) (playerName : JS.string) : JS.string := value.

Definition handleSubmit (playerName : JS.string) : list Effect :=
  PreventDefault ::
  (if JS.truthy (JS.trim playerName)
   then [OnStart (JS.trim playerName)]
   else []).

End StartMenu.

(** ** PerformanceManager: dynamic resolution scaling

    [applyResolutionScale] only talks to the renderer
    ([setPixelRatio], [setSize]) and [console.log] only to the console:
    neither touches the manager's fields, and both are left out. *)

Module PerformanceManager.

Record t := {
  lastFpsTime : Q;
  frameCount : Z;
  currentFps : JS.number;
  targetFps : JS.number;
  resolutionScale : JS.number;
  fpsHistory : list JS.number;
  isEnabled : bool;
  lastResolutionChangeTime : Q
}.

Definition MIN_RESOLUTION_SCALE : JS.number := JS.Fin (1 # 2).
Definition FPS_HISTORY_SIZE : nat := 20.
Definition MIN_CHANGE_INTERVAL : Q := 2000.
Definition LOW_FPS_THRESHOLD : JS.number := JS.Fin 30.
Definition HIGH_FPS_THRESHOLD : JS.number := JS.Fin 55.

(** The constructor: the history starts as [FPS_HISTORY_SIZE] copies of
    the target rate. *)
Definition new : t :=
  {| lastFpsTime := 0;
     frameCount := 0;
     currentFps := JS.Fin 60;
     targetFps := JS.Fin 60;
     resolutionScale := JS.Fin 1;
     fpsHistory := repeat (JS.Fin 60) FPS_HISTORY_SIZE;
     isEnabled := true;
     lastResolutionChangeTime := 0 |}.

(** [a.slice(-n)]: the last [n] elements. *)
Definition slice_last {A} (n : nat) (a : list A) : list A :=
  skipn (length a - n) a.

(** [push] then [shift] when the history has outgrown its size. *)
Definition record_fps (fps : JS.number) (h : list JS.number) : list JS.number :=
  let h' := h ++ [fps] in
  if (FPS_HISTORY_SIZE <? length h')%nat then tl h' else h'.

Definition setScale (s : JS.number) (now : Q) (pm : t) : t :=
  {| lastFpsTime := lastFpsTime pm;
     frameCount := frameCount pm;
     currentFps := currentFps pm;
     targetFps := targetFps pm;
     resolutionScale := s;
     fpsHistory := fpsHistory pm;
     isEnabled := isEnabled pm;
     lastResolutionChangeTime := now |}.

Section Update.
Variable fl : JS.Rounding.

(** [recentFps.reduce((sum, fps) => sum + fps, 0) / recentFps.length] *)
Definition average (recentFps : list JS.number) : JS.number :=
  JS.div fl (fold_left (JS.add fl) recentFps (JS.Fin 0))
            (JS.of_Z (Z.of_nat (length recentFps))).

(** The two branches that adjust the scale, given the average rate. *)
Definition adjust (avgFps : JS.number) (now : Q) (pm : t) : t :=
  if JS.lt avgFps LOW_FPS_THRESHOLD then
    let reduction :=
      if JS.lt avgFps (JS.Fin 20) then JS.Fin (JS.rnd fl (85 # 100)) else JS.Fin (JS.rnd fl (95 # 100)) in
    let newScale :=
      JS.max (JS.mul fl (resolutionScale pm) reduction) MIN_RESOLUTION_SCALE in
    if JS.gt (JS.abs (JS.sub fl newScale (resolutionScale pm))) (JS.Fin (JS.rnd fl (2 # 100)))
    then setScale newScale now pm
    else pm
  else if JS.gt avgFps HIGH_FPS_THRESHOLD && JS.lt (resolutionScale pm) (JS.Fin 1) then
    let newScale := JS.min (JS.mul fl (resolutionScale pm) (JS.Fin (JS.rnd fl (102 # 100)))) (JS.Fin 1) in
    if JS.gt (JS.sub fl newScale (resolutionScale pm)) (JS.Fin (JS.rnd fl (1 # 100)))
    then setScale newScale now pm
    else pm
  else pm.

(** [update()], called on each frame; [now] is what [performance.now()]
    returns on that call. *)
Definition update (now : Q) (pm : t) : t :=
  if negb (isEnabled pm) then pm
  else
    let frames := (frameCount pm + 1)%Z in
    if Qle_bool 1000 (JS.rnd fl (now - lastFpsTime pm)%Q) then
      let pm1 :=
        {| lastFpsTime := now;
           frameCount := 0;
           currentFps := JS.of_Z frames;
           targetFps := targetFps pm;
           resolutionScale := resolutionScale pm;
           fpsHistory := record_fps (JS.of_Z frames) (fpsHistory pm);
           isEnabled := isEnabled pm;
           lastResolutionChangeTime := lastResolutionChangeTime pm |} in
      if JS.Qltb (JS.rnd fl (now - lastResolutionChangeTime pm1)%Q) MIN_CHANGE_INTERVAL
      then pm1
      else adjust (average (slice_last 10 (fpsHistory pm1))) now pm1
    else
      {| lastFpsTime := lastFpsTime pm;
         frameCount := frames;
         currentFps := currentFps pm;
         targetFps := targetFps pm;
         resolutionScale := resolutionScale pm;
         fpsHistory := fpsHistory pm;
         isEnabled := isEnabled pm;
         lastResolutionChangeTime := lastResolutionChangeTime pm |}.
End Update.

Definition setTargetFps (fps : JS.number) (pm : t) : t :=
  {| lastFpsTime := lastFpsTime pm;
     frameCount := frameCount pm;
     currentFps := currentFps pm;
     targetFps := fps;
     resolutionScale := resolutionScale pm;
     fpsHistory := fpsHistory pm;
     isEnabled := isEnabled pm;
     lastResolutionChangeTime := lastResolutionChangeTime pm |}.

Definition setEnabled (enabled : bool) (pm : t) : t :=
  {| lastFpsTime := lastFpsTime pm;
     frameCount := frameCount pm;
     currentFps := currentFps pm;
     targetFps := targetFps pm;
     resolutionScale := if enabled then resolutionScale pm else JS.Fin 1;
     fpsHistory :=
       if enabled then repeat (targetFps pm) FPS_HISTORY_SIZE else fpsHistory pm;
     isEnabled := enabled;
     lastResolutionChangeTime := lastResolutionChangeTime pm |}.

Definition getCurrentFps (pm : t) : JS.number := currentFps pm.
Definition getResolutionScale (pm : t) : JS.number := resolutionScale pm.

(** [setResolutionScale(scale)]; [now] is the clock reading it stores. *)
Definition setResolutionScale (scale : JS.number) (now : Q) (pm : t) : t :=
  setScale (JS.max MIN_RESOLUTION_SCALE (JS.min (JS.Fin 1) scale)) now pm.

(** The calls a client can make on the manager. *)
Inductive Call :=
| Update (now : Q)
| SetTargetFps (fps : JS.number)
| SetEnabled (enabled : bool)
| SetResolutionScale (scale : JS.number) (now : Q).

Definition call (fl : JS.Rounding) (c : Call) (pm : t) : t :=
  match c with
  | Update now => update fl now pm
  | SetTargetFps fps => setTargetFps fps pm
  | SetEnabled enabled => setEnabled enabled pm
  | SetResolutionScale scale now => setResolutionScale scale now pm
  end.

Definition run (fl : JS.Rounding) (cs : list Call) (pm : t) : t :=
  fold_left (fun pm c => call fl c pm) cs pm.

(** The range the scale is meant to stay in. *)
Definition in_range (s : JS.number) : Prop :=
  match s with
  | JS.Fin q => (1 # 2 <= q <= 1)%Q
  | _ => False
  end.

End PerformanceManager.

(** ** Positions *)

Module Vector3.
Record t := { x : Q; y : Q; z : Q }.
End Vector3.

(** The ground-plane projection [{x, z}]. *)
Module Vector2.
Record t := { x : Q; z : Q }.
Definition of3 (p : Vector3.t) : t := {| x := Vector3.x p; z := Vector3.z p |}.
End Vector2.

(** A position as it travels in a message: [{x, y, z, rotation}]. *)
Module Position.
Record t := { x : Q; y : Q; z : Q; rotation : option Q }.
Definition vector (p : t) : Vector3.t :=
  {| Vector3.x := x p; Vector3.y := y p; Vector3.z := z p |}.
End Position.

(** ** MultiplayerManager: the registry of remote players *)

Module MultiplayerManager.

(** Modelled from the spec: the class [MultiplayerManager] of
    [./core/MultiplayerManager], of which the repository's sources under
    study hold only the calls.  The record and every operation below
    follow section 4.4 of the specification: a registry of remote players
    keyed by id, from which the id set by [setLocalPlayerId] is excluded;
    [addPlayer] inserts or, for an id already present, updates the
    position; [updatePlayerPosition] creates the player when the id is
    unknown; [removePlayer] is a no-op for an absent id; [update] advances
    the rendered transform of every remote player; [getEnemyPositions]
    lists the ground-plane positions; [clear] empties the registry.  The
    field [lastUpdateTime] of the specification's data model, which no
    contract of section 4.4 reads or writes, is left out. *)
Record RemotePlayer := {
  targetPosition : Vector3.t;
  targetRotation : option Q;
  renderedPosition : Vector3.t;
  renderedRotation : option Q
}.

(** Modelled from the spec: the manager's state, which is the excluded
    id, the local player's position and the registry. *)
Record t := {
  localPlayerId : option JS.string;
  localPlayerPosition : option Vector3.t;
  players : gmap JS.string RemotePlayer
}.

(** Modelled from the spec: an entry [{id, position}] of
    [getEnemyPositions()]. *)
Record Enemy := { id : JS.string; position : Vector2.t }.

(** Modelled from the spec: where a player added without a position is
    put. *)
Definition origin : Vector3.t := {| Vector3.x := 0; Vector3.y := 0; Vector3.z := 0 |}.

(** Modelled from the spec: a manager with an empty registry. *)
Definition new : t :=
  {| localPlayerId := None; localPlayerPosition := None; players := ∅ |}.

(** Modelled from the spec: the manager with another registry. *)
Definition with_players (m : t) (ps : gmap JS.string RemotePlayer) : t :=
  {| localPlayerId := localPlayerId m;
     localPlayerPosition := localPlayerPosition m;
     players := ps |}.

(** Modelled from the spec: whether an id is the excluded one. *)
Definition is_local (m : t) (id : JS.string) : bool :=
  bool_decide (localPlayerId m = Some id).

(** Modelled from the spec: [setLocalPlayerId(id)]. *)
Definition setLocalPlayerId (id : JS.string) (m : t) : t :=
  {| localPlayerId := Some id;
     localPlayerPosition := localPlayerPosition m;
     players := players m |}.

(** Modelled from the spec: a new remote player, drawn where it is
    reported. *)
Definition spawn (p : Vector3.t) (r : option Q) : RemotePlayer :=
  {| targetPosition := p; targetRotation := r;
     renderedPosition := p; renderedRotation := r |}.

(** Modelled from the spec: a known remote player with a new target; what
    is drawn moves only in [update]. *)
Definition retarget (p : Vector3.t) (r : option Q) (rp : RemotePlayer) : RemotePlayer :=
  {| targetPosition := p; targetRotation := r;
     renderedPosition := renderedPosition rp;
     renderedRotation := renderedRotation rp |}.

(** Modelled from the spec: [addPlayer(id, initialPosition?)]. *)
Definition addPlayer (id : JS.string) (initialPosition : option Position.t) (m : t) : t :=
  if is_local m id then m
  else
    match players m !! id, initialPosition with
    | Some rp, Some p =>
        with_players m
          (<[id := retarget (Position.vector p) (targetRotation rp) rp]> (players m))
    | Some _, None => m
    | None, Some p => with_players m (<[id := spawn (Position.vector p) None]> (players m))
    | None, None => with_players m (<[id := spawn origin None]> (players m))
    end.

(** Modelled from the spec: [removePlayer(id)]. *)
Definition removePlayer (id : JS.string) (m : t) : t :=
  with_players m (delete id (players m)).

(** Modelled from the spec: [updatePlayerPosition(id, position, rotation)]. *)
Definition updatePlayerPosition
    (id : JS.string) (position : Position.t) (rotation : option Q) (m : t) : t :=
  if is_local m id then m
  else
    match players m !! id with
    | Some rp =>
        with_players m (<[id := retarget (Position.vector position) rotation rp]> (players m))
    | None =>
        with_players m (<[id := spawn (Position.vector position) rotation]> (players m))
    end.

(** Modelled from the spec: [setLocalPlayerPosition(position)]. *)
Definition setLocalPlayerPosition (p : Vector3.t) (m : t) : t :=
  {| localPlayerId := localPlayerId m;
     localPlayerPosition := Some p;
     players := players m |}.

(** Modelled from the spec: [update(delta)].  The smoothing and the
    level-of-detail policy are whatever [advance] is: it is given the
    frame's [delta] and the local player's position. *)
Definition update
    (advance : Q -> option Vector3.t -> RemotePlayer -> RemotePlayer)
    (delta : Q) (m : t) : t :=
  with_players m (advance delta (localPlayerPosition m) <$> players m).

(** Modelled from the spec: [getEnemyPositions()]. *)
Definition getEnemyPositions (m : t) : list Enemy :=
  (fun kv => {| id := fst kv; position := Vector2.of3 (renderedPosition (snd kv)) |})
    <$> map_to_list (players m).

(** Modelled from the spec: [clear()]. *)
Definition clear (m : t) : t := with_players m ∅.

End MultiplayerManager.

(** ** GameRenderer: network handlers and the frame callback

    The calls the renderer makes on its collaborators (the camera
    controller, the callbacks [onPositionUpdate] and
    [onEnemyPositionsUpdate], [gameClient.updatePosition]) are taken to
    return normally; they appear as effects, in the order of the calls. *)

Module GameRenderer.

(** What the renderer sees of its [gameClient] prop: the id
    [getPlayerId()] returns, absent before the connection completes. *)
Record GameClient := { getPlayerId : option JS.string }.

(** One entry of a [game_state] snapshot; [position] is [None] when the
    field is missing or otherwise falsy. *)
Record PlayerEntry := { position : option Position.t }.

(** The inbound messages; [GameState] carries [Object.entries(data.players)]. *)
Inductive NetworkMessage :=
| PlayerJoined (player_id : JS.string)
| PlayerLeft (player_id : JS.string)
| PlayerMoved (player_id : JS.string) (position : Position.t)
| GameState (players : list (JS.string * PlayerEntry)).

(** The refs of the component. *)
Record t := {
  cameraController : bool;
  multiplayerManager : option MultiplayerManager.t;
  lastUpdateTime : Q;
  lastEnemyUpdateTime : Q
}.

Definition updateInterval : Q := 100.
Definition enemyUpdateInterval : Q := 200.

(** The refs before the first effect has run. *)
Definition initial : t :=
  {| cameraController := false;
     multiplayerManager := None;
     lastUpdateTime := 0;
     lastEnemyUpdateTime := 0 |}.

(** [multiplayerManager.current?.f(...)] *)
Definition onManager (f : MultiplayerManager.t -> MultiplayerManager.t) (g : t) : t :=
  {| cameraController := cameraController g;
     multiplayerManager := f <$> multiplayerManager g;
     lastUpdateTime := lastUpdateTime g;
     lastEnemyUpdateTime := lastEnemyUpdateTime g |}.

(** [s || ''] for an optional string. *)
Definition orEmpty (s : option JS.string) : JS.string :=
  match s with
  | Some s => if JS.truthy s then s else []
  | None => []
  end.

(** The first effect: a fresh manager, told the local player's id. *)
Definition mount (gameClient : GameClient) (g : t) : t :=
  {| cameraController := cameraController g;
     multiplayerManager :=
       Some (MultiplayerManager.setLocalPlayerId (orEmpty (getPlayerId gameClient))
               MultiplayerManager.new);
     lastUpdateTime := lastUpdateTime g;
     lastEnemyUpdateTime := lastEnemyUpdateTime g |}.

(** Its clean-up. *)
Definition unmount (g : t) : t := onManager MultiplayerManager.clear g.

(** The second effect: the camera controller exists once the game has a
    player. *)
Definition attachCamera (hasPlayer : bool) (g : t) : t :=
  {| cameraController := if hasPlayer then true else cameraController g;
     multiplayerManager := multiplayerManager g;
     lastUpdateTime := lastUpdateTime g;
     lastEnemyUpdateTime := lastEnemyUpdateTime g |}.

Definition on_player_joined (player_id : JS.string) (g : t) : t :=
  onManager (MultiplayerManager.addPlayer player_id None) g.

Definition on_player_left (player_id : JS.string) (g : t) : t :=
  onManager (MultiplayerManager.removePlayer player_id) g.

Definition on_player_moved (player_id : JS.string) (position : Position.t) (g : t) : t :=
  onManager
    (MultiplayerManager.updatePlayerPosition player_id position (Position.rotation position)) g.

(** The body of the [forEach] of the [game_state] handler. *)
Definition add_from_game_state
    (gameClient : GameClient) (g : t) (entry : JS.string * PlayerEntry) : t :=
  let (id, player) := entry in
  match position player with
  | Some p =>
      if negb (bool_decide (Some id = getPlayerId gameClient))
      then onManager (MultiplayerManager.addPlayer id (Some p)) g
      else g
  | None => g
  end.

Definition on_game_state
    (gameClient : GameClient) (players : list (JS.string * PlayerEntry)) (g : t) : t :=
  fold_left (add_from_game_state gameClient) players g.

Definition handle (gameClient : GameClient) (m : NetworkMessage) (g : t) : t :=
  match m with
  | PlayerJoined player_id => on_player_joined player_id g
  | PlayerLeft player_id => on_player_left player_id g
  | PlayerMoved player_id position => on_player_moved player_id position g
  | GameState players => on_game_state gameClient players g
  end.

(** What one frame reads: the frame's [delta], the value
    [performance.now()] returns if it is asked, and the local player's
    position, rotation and trail. *)
Record Frame := {
  delta : Q;
  now : Q;
  playerPos : option Vector3.t;
  playerRotation : option Q;
  trails : list Vector3.t
}.

(** The calls a frame makes on its collaborators, in order. *)
Inductive Effect :=
| CameraUpdate (delta : Q)
| SetLocalPlayerPosition (p : Vector3.t)
| OnPositionUpdate (p : Vector3.t) (trailPoints : list Vector2.t)
| UpdatePosition (x y z : Q) (rotation : option Q)
| OnEnemyPositionsUpdate (enemies : list MultiplayerManager.Enemy)
| ManagerUpdate (delta : Q).

Section Frames.
Variable fl : JS.Rounding.
Variable advance : Q -> option Vector3.t -> MultiplayerManager.RemotePlayer ->
                   MultiplayerManager.RemotePlayer.

(** The part of the frame callback guarded by [if (playerPos)]. *)
Definition withPlayerPos (f : Frame) (p : Vector3.t) (g : t) : t * list Effect :=
  let mm := MultiplayerManager.setLocalPlayerPosition p <$> multiplayerManager g in
  let e1 :=
    match multiplayerManager g with
    | Some _ => [SetLocalPlayerPosition p]
    | None => []
    end in
  let e2 := [OnPositionUpdate p (Vector2.of3 <$> trails f)] in
  let send := JS.Qltb updateInterval (JS.rnd fl (now f - lastUpdateTime g)%Q) in
  let e3 :=
    if send
    then [UpdatePosition (Vector3.x p) (Vector3.y p) (Vector3.z p) (playerRotation f)]
    else [] in
  let refresh :=
    JS.Qltb enemyUpdateInterval (JS.rnd fl (now f - lastEnemyUpdateTime g)%Q) in
  let e4 :=
    if refresh
    then match mm with
         | Some m => [OnEnemyPositionsUpdate (MultiplayerManager.getEnemyPositions m)]
         | None => []
         end
    else [] in
  ({| cameraController := cameraController g;
      multiplayerManager := mm;
      lastUpdateTime := if send then now f else lastUpdateTime g;
      lastEnemyUpdateTime := if refresh then now f else lastEnemyUpdateTime g |},
   e1 ++ e2 ++ e3 ++ e4).

(** The [useFrame] callback. *)
Definition useFrame (f : Frame) (g : t) : t * list Effect :=
  let e0 := if cameraController g then [CameraUpdate (delta f)] else [] in
  let '(g1, e1) :=
    match playerPos f with
    | Some p => withPlayerPos f p g
    | None => (g, [])
    end in
  let e2 :=
    match multiplayerManager g1 with
    | Some _ => [ManagerUpdate (delta f)]
    | None => []
    end in
  (onManager (MultiplayerManager.update advance (delta f)) g1, e0 ++ e1 ++ e2).

(** What happens to a mounted renderer: a message arrives or a frame
    is drawn. *)
Inductive Event :=
| Message (m : NetworkMessage)
| Tick (f : Frame).

Definition step (gameClient : GameClient) (ev : Event) (g : t) : t * list Effect :=
  match ev with
  | Message m => (handle gameClient m g, [])
  | Tick f => useFrame f g
  end.

(** A run, with the effects of each event next to the event. *)
Fixpoint run (gameClient : GameClient) (evs : list Event) (g : t)
  : t * list (Event * list Effect) :=
  match evs with
  | [] => (g, [])
  | ev :: evs' =>
      let '(g1, e1) := step gameClient ev g in
      let '(g2, h) := run gameClient evs' g1 in
      (g2, (ev, e1) :: h)
  end.
End Frames.

Definition isSend (e : Effect) : bool :=
  match e with
  | UpdatePosition _ _ _ _ => true
  | _ => false
  end.

Definition isRefresh (e : Effect) : bool :=
  match e with
  | OnEnemyPositionsUpdate _ => true
  | _ => false
  end.

Definition isManagerUpdate (e : Effect) : bool :=
  match e with
  | ManagerUpdate _ => true
  | _ => false
  end.

(** The clock readings of the frames of a run in which an effect of a
    given kind took place. *)
Definition timesOf (kind : Effect -> bool) (h : list (Event * list Effect)) : list Q :=
  flat_map
    (fun entry =>
       match entry with
       | (Tick f, es) => if existsb kind es then [now f] else []
       | (Message _, _) => []
       end) h.

Definition sendTimes := timesOf isSend.
Definition refreshTimes := timesOf isRefresh.

(** The instants from [w] to [w + len], both included. *)
Definition inWindow (w len t : Q) : bool :=
  Qle_bool w t && Qle_bool t (w + len).

Definition withLastUpdateTime (time : Q) (g : t) : t :=
  {| cameraController := cameraController g;
     multiplayerManager := multiplayerManager g;
     lastUpdateTime := time;
     lastEnemyUpdateTime := lastEnemyUpdateTime g |}.

Definition withLastEnemyUpdateTime (time : Q) (g : t) : t :=
  {| cameraController := cameraController g;
     multiplayerManager := multiplayerManager g;
     lastUpdateTime := lastUpdateTime g;
     lastEnemyUpdateTime := time |}.

End GameRenderer.

(** ** GameScene: starting the game

    The sources hold two versions of the scene.  The earlier one has no
    network client at all; the later one, which connects before it starts
    the game, is the one modelled here and above. *)

Module GameScene.

(** An error thrown by [connect], by its message. *)
Abbreviation Error := JS.string (only parsing).

(** How [await gameClient.current.connect(name)] ends: it returns, the
    client having been given its id, or it throws. *)
Inductive ConnectResult :=
| Connected (playerId : JS.string)
| Failed (error : Error).

(** A constructed [TronGame]: the name it was started with. *)
Record TronGame := { startedAs : JS.string }.

(** The state and the refs of the component. *)
Record t := {
  gameStarted : bool;
  playerName : option JS.string;
  arenaSize : Q;
  scene : bool;
  game : option TronGame;
  gameClient : option GameRenderer.GameClient
}.

Definition initial : t :=
  {| gameStarted := false;
     playerName := None;
     arenaSize := 500;
     scene := false;
     game := None;
     gameClient := None |}.

(** [onCreated] of the canvas: the scene ref is set. *)
Definition onCreated (s : t) : t :=
  {| gameStarted := gameStarted s;
     playerName := playerName s;
     arenaSize := arenaSize s;
     scene := true;
     game := game s;
     gameClient := gameClient s |}.

(** The calls [handleGameStart] makes, in order. *)
Inductive Effect :=
| NewGameClient
| Connect (name : JS.string)
| SetPlayerName (name : JS.string)
| SetGameStarted (started : bool)
| NewTronGame
| Start (name : JS.string)
| SetArenaSize (size : Q)
| ConsoleError (error : Error).

Section Start.
(** What [getArenaSize()] of a started game returns. *)
Variable getArenaSize : TronGame -> Q.

(** [handleGameStart(name)], given how the connection attempt ends. *)
Definition handleGameStart (name : JS.string) (result : ConnectResult) (s : t)
  : t * list Effect :=
  match result with
  | Connected playerId =>
      let client := {| GameRenderer.getPlayerId := Some playerId |} in
      if scene s then
        let g := {| startedAs := name |} in
        ({| gameStarted := true;
            playerName := Some name;
            arenaSize := getArenaSize g;
            scene := scene s;
            game := Some g;
            gameClient := Some client |},
         [NewGameClient; Connect name; SetPlayerName name; SetGameStarted true;
          NewTronGame; Start name; SetArenaSize (getArenaSize g)])
      else
        ({| gameStarted := true;
            playerName := Some name;
            arenaSize := arenaSize s;
            scene := scene s;
            game := game s;
            gameClient := Some client |},
         [NewGameClient; Connect name; SetPlayerName name; SetGameStarted true])
  | Failed error =>
      ({| gameStarted := gameStarted s;
          playerName := playerName s;
          arenaSize := arenaSize s;
          scene := scene s;
          game := game s;
          gameClient := Some {| GameRenderer.getPlayerId := None |} |},
       [NewGameClient; Connect name; ConsoleError error])
  end.
End Start.

Definition constructsGame (e : Effect) : bool :=
  match e with
  | NewTronGame | Start _ | SetArenaSize _ => true
  | _ => false
  end.

End GameScene.

(** ** The trail and collision engine *)

Module CollisionEngine.

(** Modelled from the spec: a segment, the line between two consecutive
    points of a trail. *)
Abbreviation Segment := (Vector2.t * Vector2.t)%type (only parsing).

(** Modelled from the spec: the trail and collision engine of section 4.1,
    whose code ([./core/TronGame] and what it loads) is not among the
    sources under study.  The engine holds the arena's side length, the
    trail of every tracked player in insertion order, the current
    position of every player, the minimum distance between two recorded
    points and the radius within which another player is a hit. *)
Record t := {
  size : Q;
  trails : gmap JS.string (list Vector2.t);
  positions : gmap JS.string Vector2.t;
  epsilon : Q;
  proximity : Q
}.

(** Modelled from the spec: the square of the distance between two
    ground-plane points. *)
Definition dist2 (p q : Vector2.t) : Q :=
  ((Vector2.x p - Vector2.x q) * (Vector2.x p - Vector2.x q)
   + (Vector2.z p - Vector2.z q) * (Vector2.z p - Vector2.z q))%Q.

(** Modelled from the spec: the trail of a player, empty when the player
    is not tracked. *)
Definition trailOf (e : t) (playerId : JS.string) : list Vector2.t :=
  default [] (trails e !! playerId).

(** Modelled from the spec: the engine with other trails. *)
Definition with_trails (e : t) (ts : gmap JS.string (list Vector2.t)) : t :=
  {| size := size e; trails := ts; positions := positions e;
     epsilon := epsilon e; proximity := proximity e |}.

(** Modelled from the spec: [recordPoint(playerId, point)] appends the
    point only if it is more than [epsilon] away from the last one. *)
Definition recordPoint (playerId : JS.string) (point : Vector2.t) (e : t) : t :=
  match last (trailOf e playerId) with
  | Some l =>
      if JS.Qltb (epsilon e * epsilon e)%Q (dist2 l point)
      then with_trails e (<[playerId := trailOf e playerId ++ [point]]> (trails e))
      else e
  | None => with_trails e (<[playerId := [point]]> (trails e))
  end.

(** Modelled from the spec: [removePlayer(playerId)] discards the trail. *)
Definition removePlayer (playerId : JS.string) (e : t) : t :=
  with_trails e (delete playerId (trails e)).

(** Modelled from the spec: the segments of a trail, oldest first; a trail
    with fewer than two points has none. *)
Definition segments (trail : list Vector2.t) : list Segment :=
  zip trail (tl trail).

(** Modelled from the spec: (a) the arena boundary, [|x| >= size/2] or
    [|z| >= size/2]. *)
Definition outOfBounds (e : t) (p : Vector2.t) : bool :=
  Qle_bool (size e / 2) (Qabs (Vector2.x p)) || Qle_bool (size e / 2) (Qabs (Vector2.z p)).

(** Modelled from the spec: the standard intersection test of two
    segments in the plane goes by orientations; this is the side of the
    line through [p] and [q] on which [r] lies. *)
Definition orientation (p q r : Vector2.t) : comparison :=
  ((Vector2.x q - Vector2.x p) * (Vector2.z r - Vector2.z p)
   - (Vector2.z q - Vector2.z p) * (Vector2.x r - Vector2.x p) ?= 0)%Q.

(** Modelled from the spec: [c] lies between [a] and [b]. *)
Definition within (a b c : Q) : bool :=
  Qle_bool (Qmin a b) c && Qle_bool c (Qmax a b).

(** Modelled from the spec: [r], known to be on the line through [p] and
    [q], lies on the segment from [p] to [q]. *)
Definition onSegment (p q r : Vector2.t) : bool :=
  within (Vector2.x p) (Vector2.x q) (Vector2.x r)
  && within (Vector2.z p) (Vector2.z q) (Vector2.z r).

(** Modelled from the spec: equality of two orientations. *)
Definition comparison_eqb (a b : comparison) : bool :=
  match a, b with
  | Eq, Eq | Lt, Lt | Gt, Gt => true
  | _, _ => false
  end.

(** Modelled from the spec: whether two segments have a point in common. *)
Definition intersects (s1 s2 : Segment) : bool :=
  let '(p1, q1) := s1 in
  let '(p2, q2) := s2 in
  let o1 := orientation p1 q1 p2 in
  let o2 := orientation p1 q1 q2 in
  let o3 := orientation p2 q2 p1 in
  let o4 := orientation p2 q2 q1 in
  negb (comparison_eqb o1 o2) && negb (comparison_eqb o3 o4)
  || comparison_eqb o1 Eq && onSegment p1 q1 p2
  || comparison_eqb o2 Eq && onSegment p1 q1 q2
  || comparison_eqb o3 Eq && onSegment p2 q2 p1
  || comparison_eqb o4 Eq && onSegment p2 q2 q1.

(** Modelled from the spec: the projected path of a mover, from its last
    recorded point (the candidate itself when there is none) to the
    candidate position. *)
Definition path (e : t) (playerId : JS.string) (candidate : Vector2.t) : Segment :=
  (default candidate (last (trailOf e playerId)), candidate).

(** Modelled from the spec: (b) for the mover's own trail, every segment
    but the most recent one. *)
Definition hitsOwnTrail (e : t) (playerId : JS.string) (candidate : Vector2.t) : bool :=
  existsb (intersects (path e playerId candidate))
          (removelast (segments (trailOf e playerId))).

(** Modelled from the spec: (b) for the other trails, every segment. *)
Definition hitsOtherTrail (e : t) (playerId : JS.string) (candidate : Vector2.t) : bool :=
  existsb (fun kv => existsb (intersects (path e playerId candidate)) (segments (snd kv)))
          (map_to_list (delete playerId (trails e))).

(** Modelled from the spec: (c) another player closer than [proximity]. *)
Definition nearOtherPlayer (e : t) (playerId : JS.string) (candidate : Vector2.t) : bool :=
  existsb (fun kv => JS.Qltb (dist2 (snd kv) candidate) (proximity e * proximity e)%Q)
          (map_to_list (delete playerId (positions e))).

(** Modelled from the spec: [checkCollision(playerId, candidatePosition)],
    in the order boundary, own trail, other trails, other players. *)
Definition checkCollision (e : t) (playerId : JS.string) (candidate : Vector2.t) : bool :=
  outOfBounds e candidate
  || hitsOwnTrail e playerId candidate
  || hitsOtherTrail e playerId candidate
  || nearOtherPlayer e playerId candidate.

End CollisionEngine.

(** ** Sample data *)

Module Examples.

Definition flynn : JS.string := JS.str "flynn".
Definition clu : JS.string := JS.str "clu".
Definition tron : JS.string := JS.str "tron".

(** A manager that draws every remote player where it already is. *)
Definition still (delta : Q) (localPosition : option Vector3.t)
    (rp : MultiplayerManager.RemotePlayer) : MultiplayerManager.RemotePlayer := rp.

(** A client connected as [flynn], and the renderer mounted on it. *)
Definition client : GameRenderer.GameClient :=
  {| GameRenderer.getPlayerId := Some flynn |}.

Definition mounted : GameRenderer.t :=
  GameRenderer.mount client GameRenderer.initial.

Definition at_ (x z : Q) : Position.t :=
  {| Position.x := x; Position.y := 0; Position.z := z; Position.rotation := Some 0%Q |}.

(** A frame at clock reading [time] in which the game has no player. *)
Definition idle (time : Q) : GameRenderer.Frame :=
  {| GameRenderer.delta := 16 # 1000;
     GameRenderer.now := time;
     GameRenderer.playerPos := None;
     GameRenderer.playerRotation := None;
     GameRenderer.trails := [] |}.

(** A frame at clock reading [time] with the player at the origin. *)
Definition moving (time : Q) : GameRenderer.Frame :=
  {| GameRenderer.delta := 16 # 1000;
     GameRenderer.now := time;
     GameRenderer.playerPos := Some MultiplayerManager.origin;
     GameRenderer.playerRotation := Some 0%Q;
     GameRenderer.trails := [] |}.

(** Frames at 150, 200, 260, 360 and 361 ms. *)
Definition frames : list GameRenderer.Event :=
  [GameRenderer.Tick (moving 150); GameRenderer.Tick (moving 200);
   GameRenderer.Tick (moving 260); GameRenderer.Tick (moving 360);
   GameRenderer.Tick (moving 361)].

(** Messages that echo the local id, among others, and two frames. *)
Definition echoes : list GameRenderer.Event :=
  [GameRenderer.Message (GameRenderer.PlayerJoined flynn);
   GameRenderer.Tick (idle 16);
   GameRenderer.Message (GameRenderer.PlayerMoved flynn (at_ 1 2));
   GameRenderer.Message (GameRenderer.PlayerJoined clu);
   GameRenderer.Message
     (GameRenderer.GameState
        [(flynn, {| GameRenderer.position := Some (at_ 3 4) |});
         (tron, {| GameRenderer.position := Some (at_ 5 6) |})]);
   GameRenderer.Tick (moving 250)].

(** A snapshot with the local player, a player with a position and a
    player without one. *)
Definition snapshot : list (JS.string * GameRenderer.PlayerEntry) :=
  [(flynn, {| GameRenderer.position := Some (at_ 3 4) |});
   (tron, {| GameRenderer.position := Some (at_ 5 6) |});
   (clu, {| GameRenderer.position := None |})].

Definition pt (x z : Q) : Vector2.t := {| Vector2.x := x; Vector2.z := z |}.

(** An arena of side [size] in which [flynn] has drawn a trail with a
    corner and [clu] a straight one. *)
Definition arena (size : Q) : CollisionEngine.t :=
  {| CollisionEngine.size := size;
     CollisionEngine.trails :=
       <[flynn := [pt 0 0; pt 4 0; pt 4 3]]> (<[clu := [pt (-3) (-2); pt (-1) (-2)]]> ∅);
     CollisionEngine.positions := <[flynn := pt 4 3]> (<[clu := pt (-1) (-2)]> ∅);
     CollisionEngine.epsilon := 1 # 10;
     CollisionEngine.proximity := 1 |}.

End Examples.

(** ** The calls of a frame, by kind and by place *)

Module FrameEffects.

Definition isPositionUpdate (e : GameRenderer.Effect) : bool :=
  match e with
  | GameRenderer.OnPositionUpdate _ _ => true
  | _ => false
  end.

(** The place of a call in the text of the frame callback. *)
Definition rank (e : GameRenderer.Effect) : nat :=
  match e with
  | GameRenderer.CameraUpdate _ => 0
  | GameRenderer.SetLocalPlayerPosition _ => 1
  | GameRenderer.OnPositionUpdate _ _ => 2
  | GameRenderer.UpdatePosition _ _ _ _ => 3
  | GameRenderer.OnEnemyPositionsUpdate _ => 4
  | GameRenderer.ManagerUpdate _ => 5
  end.

End FrameEffects.

(** ** GameScene: what is on screen *)

Module GameSceneView.

(** [gameStarted && game.current && gameClient.current && <GameRenderer/>] *)
Definition rendersGameRenderer (s : GameScene.t) : bool :=
  GameScene.gameStarted s
  && match GameScene.game s with Some _ => true | None => false end
  && match GameScene.gameClient s with Some _ => true | None => false end.

(** [!gameStarted && <StartMenu/>] *)
Definition rendersStartMenu (s : GameScene.t) : bool := negb (GameScene.gameStarted s).

(** [gameStarted && <Minimap/>] *)
Definition rendersMinimap (s : GameScene.t) : bool := GameScene.gameStarted s.

(** The clean-up of the scene: the client, if one was ever created, is
    disconnected. *)
Inductive Cleanup :=
| Disconnect (client : GameRenderer.GameClient).

Definition unmount (s : GameScene.t) : list Cleanup :=
  match GameScene.gameClient s with
  | Some client => [Disconnect client]
  | None => []
  end.

End GameSceneView.

(** ** GameScene: the state behind the minimap *)

Module Hud.

(** The state cells [playerPosition], [trailPoints] and [enemyPositions]. *)
Record t := {
  playerPosition : Vector3.t;
  trailPoints : list Vector2.t;
  enemyPositions : list MultiplayerManager.Enemy
}.

Definition initial : t :=
  {| playerPosition := {| Vector3.x := 0; Vector3.y := 0; Vector3.z := 0 |};
     trailPoints := [];
     enemyPositions := [] |}.

Definition handlePositionUpdate (pos : Vector3.t) (trail : list Vector2.t) (h : t) : t :=
  {| playerPosition := pos; trailPoints := trail; enemyPositions := enemyPositions h |}.

Definition handleEnemyPositionsUpdate (enemies : list MultiplayerManager.Enemy) (h : t) : t :=
  {| playerPosition := playerPosition h; trailPoints := trailPoints h;
     enemyPositions := enemies |}.

(** The renderer is given [handlePositionUpdate] as [onPositionUpdate] and
    [handleEnemyPositionsUpdate] as [onEnemyPositionsUpdate]: this is what
    a call of the renderer does to the cells. *)
Definition dispatch (h : t) (e : GameRenderer.Effect) : t :=
  match e with
  | GameRenderer.OnPositionUpdate pos trail => handlePositionUpdate pos trail h
  | GameRenderer.OnEnemyPositionsUpdate enemies => handleEnemyPositionsUpdate enemies h
  | _ => h
  end.

(** The cells after a run of the renderer. *)
Definition display
    (history : list (GameRenderer.Event * list GameRenderer.Effect)) (h : t) : t :=
  fold_left (fun h entry => fold_left dispatch (snd entry) h) history h.

End Hud.

(** ** The earlier scene, without a network client *)

Module GameSceneV1.

(** [handleGameStart(name)] of the earlier version: no client, no arena
    size; the fields of the later state it does not have stay as they are. *)
Definition handleGameStart (name : JS.string) (s : GameScene.t)
  : GameScene.t * list GameScene.Effect :=
  if GameScene.scene s then
    ({| GameScene.gameStarted := true;
        GameScene.playerName := Some name;
        GameScene.arenaSize := GameScene.arenaSize s;
        GameScene.scene := GameScene.scene s;
        GameScene.game := Some {| GameScene.startedAs := name |};
        GameScene.gameClient := GameScene.gameClient s |},
     [GameScene.SetPlayerName name; GameScene.SetGameStarted true;
      GameScene.NewTronGame; GameScene.Start name])
  else
    ({| GameScene.gameStarted := true;
        GameScene.playerName := Some name;
        GameScene.arenaSize := GameScene.arenaSize s;
        GameScene.scene := GameScene.scene s;
        GameScene.game := GameScene.game s;
        GameScene.gameClient := GameScene.gameClient s |},
     [GameScene.SetPlayerName name; GameScene.SetGameStarted true]).

(** The frame callback of the earlier renderer: the camera and nothing
    else. *)
Definition useFrame (delta : Q) (cameraController : bool) : list GameRenderer.Effect :=
  if cameraController then [GameRenderer.CameraUpdate delta] else [].

End GameSceneV1.

(** ** Ground: the pattern texture of the dome *)

Module Ground.

(** What storing a number in a [Uint8Array] keeps of it: the integer part,
    modulo 256; nothing of [NaN] and the infinities. *)
Definition toUint8 (x : JS.number) : Z :=
  match x with
  | JS.Fin q => ((if Qle_bool 0 q then Qfloor q else Qceiling q) mod 256)%Z
  | _ => 0%Z
  end.

Definition size : nat := 256.

(** [((i ^ j) % 16 === 0) ? 255 : 0] *)
Definition hex (i j : nat) : Z :=
  if (Z.rem (Z.lxor (Z.of_nat i) (Z.of_nat j)) 16 =? 0)%Z then 255%Z else 0%Z.

Section Pattern.
Variable fl : JS.Rounding.

(** The body of the inner loop: the four bytes of pixel [(i, j)]. *)
Definition writePixel (data : list Z) (i j : nat) : list Z :=
  let idx := (i * size + j) * 4 in
  <[idx + 3 := 255%Z]>
    (<[idx + 2 := toUint8 (JS.of_Z (hex i j))]>
       (<[idx + 1 := toUint8 (JS.mul fl (JS.of_Z (hex i j)) (JS.Fin (JS.rnd fl (6 # 10))))]>
          (<[idx := toUint8 (JS.mul fl (JS.of_Z (hex i j)) (JS.Fin (JS.rnd fl (1 # 10))))]>
             data))).

(** The bytes handed to [THREE.DataTexture]. *)
Definition hexPattern : list Z :=
  fold_left
    (fun data i => fold_left (fun data j => writePixel data i j) (seq 0 size) data)
    (seq 0 size)
    (replicate (size * size * 4) 0%Z).
End Pattern.

End Ground.

(** ** More sample data *)

Module Samples.

(** A manager that has seen ten frames per second for a while. *)
Definition slow : PerformanceManager.t :=
  PerformanceManager.setEnabled true
    (PerformanceManager.setTargetFps (JS.Fin 10) PerformanceManager.new).

(** Calls of every kind, none of which hands [NaN] to [setResolutionScale]. *)
Definition calls : list PerformanceManager.Call :=
  [PerformanceManager.SetTargetFps JS.NaN;
   PerformanceManager.SetEnabled true;
   PerformanceManager.Update 3000;
   PerformanceManager.SetResolutionScale (JS.Fin 7) 3500;
   PerformanceManager.SetResolutionScale JS.NegInf 3600;
   PerformanceManager.Update 9000;
   PerformanceManager.SetEnabled false].

(** A manager whose scale [setResolutionScale(NaN)] has spoilt. *)
Definition spoilt : PerformanceManager.t :=
  PerformanceManager.setResolutionScale JS.NaN 0 PerformanceManager.new.

End Samples.

(** * Properties *)

(** ** Comparisons and rounding *)

Lemma Qltb_true (a b : Q) : JS.Qltb a b = true <-> (a < b)%Q.
Proof.
  unfold JS.Qltb. rewrite negb_true_iff, <- not_true_iff_false, Qle_bool_iff.
  split; [apply Qnot_le_lt | apply Qlt_not_le].
Qed.

Lemma Qltb_false (a b : Q) : JS.Qltb a b = false <-> (b <= a)%Q.
Proof.
  unfold JS.Qltb. rewrite negb_false_iff. apply Qle_bool_iff.
Qed.

Lemma rnd_one (fl : JS.Rounding) : (JS.rnd fl 1 == 1)%Q.
Proof. apply (JS.rnd_int fl 1). vm_compute. discriminate. Qed.

Lemma rnd_Z_le (fl : JS.Rounding) (z : Z) (q : Q) :
  (Z.abs z <= 2 ^ 53)%Z -> (q <= inject_Z z)%Q -> (JS.rnd fl q <= inject_Z z)%Q.
Proof.
  intros Hz Hq. rewrite <- (JS.rnd_int fl z Hz). now apply JS.rnd_mono.
Qed.

Lemma rnd_Z_ge (fl : JS.Rounding) (z : Z) (q : Q) :
  (Z.abs z <= 2 ^ 53)%Z -> (inject_Z z <= q)%Q -> (inject_Z z <= JS.rnd fl q)%Q.
Proof.
  intros Hz Hq. rewrite <- (JS.rnd_int fl z Hz). now apply JS.rnd_mono.
Qed.

(** A rounded difference above an integer bound means the exact
    difference is above it too. *)
Lemma rnd_gap (fl : JS.Rounding) (z : Z) (a b : Q) :
  (Z.abs z <= 2 ^ 53)%Z ->
  JS.Qltb (inject_Z z) (JS.rnd fl (a - b)%Q) = true -> (b + inject_Z z < a)%Q.
Proof.
  intros Hz H. apply Qltb_true in H.
  destruct (Qlt_le_dec (b + inject_Z z) a) as [Hlt | Hle]; [exact Hlt | exfalso].
  assert (Hd : (a - b <= inject_Z z)%Q) by lra.
  pose proof (rnd_Z_le fl z _ Hz Hd). lra.
Qed.

(** ** The start menu *)

Section StartMenuFacts.
Import StartMenu.

Lemma trimStart_length (s : JS.string) : length (JS.trimStart s) <= length s.
Proof.
  induction s as [| c s IH]; simpl; [lia |].
  destruct (JS.isWhiteSpace c); simpl; lia.
Qed.

Lemma trimEnd_length (s : JS.string) : length (JS.trimEnd s) <= length s.
Proof.
  unfold JS.trimEnd. rewrite length_rev.
  etransitivity; [apply trimStart_length |]. now rewrite length_rev.
Qed.

Lemma trim_length (s : JS.string) : length (JS.trim s) <= length s.
Proof.
  unfold JS.trim. etransitivity; [apply trimEnd_length | apply trimStart_length].
Qed.

(** What [trimStart] removes is a prefix of white space, and what is left
    does not start with white space. *)
Lemma trimStart_split (s : JS.string) :
  exists pre, s = pre ++ JS.trimStart s
              /\ forallb JS.isWhiteSpace pre = true
              /\ (forall c r, JS.trimStart s = c :: r -> JS.isWhiteSpace c = false).
Proof.
  induction s as [| c s (pre & Hs & Hpre & Hhd)]; simpl.
  - exists []. split; [reflexivity |]. split; [reflexivity | discriminate].
  - destruct (JS.isWhiteSpace c) eqn:Hc.
    + exists (c :: pre). simpl. rewrite Hc, Hpre.
      split; [now rewrite <- Hs |]. split; [reflexivity | exact Hhd].
    + exists []. split; [reflexivity |]. split; [reflexivity |].
      intros c' r [= <- _]. exact Hc.
Qed.

(** [trim] keeps a middle part of the string and drops white space only. *)
Lemma trim_split (s : JS.string) :
  exists pre post, s = pre ++ JS.trim s ++ post
                   /\ forallb JS.isWhiteSpace pre = true
                   /\ forallb JS.isWhiteSpace post = true.
Proof.
  destruct (trimStart_split s) as (pre & Hs & Hpre & _).
  destruct (trimStart_split (rev (JS.trimStart s))) as (tsop & Hr & Hpost & _).
  exists pre, (rev tsop). repeat split; [| exact Hpre |].
  - unfold JS.trim, JS.trimEnd. rewrite <- rev_app_distr, <- Hr, rev_involutive.
    exact Hs.
  - rewrite forallb_forall in *. intros c Hc. apply Hpost. now apply in_rev.
Qed.

(** C9. Whatever name of at most [maxLength] code units the input holds
    when the form is submitted, the callback [onStart] is called at most
    once and with the trimmed name, which is then non-empty and at most 15
    code units long; when the trimmed name is empty, the callback is not
    called at all. *)
Theorem handleSubmit_name (playerName : JS.string) :
  length playerName <= maxLength ->
  (JS.trim playerName = [] -> handleSubmit playerName = [PreventDefault])
  /\ (JS.trim playerName <> [] ->
      handleSubmit playerName = [PreventDefault; OnStart (JS.trim playerName)])
  /\ (forall name, In (OnStart name) (handleSubmit playerName) ->
      name = JS.trim playerName /\ name <> [] /\ length name <= 15).
Proof.
  intros Hlen. unfold handleSubmit.
  pose proof (trim_length playerName) as Htrim. unfold maxLength in Hlen.
  destruct (JS.trim playerName) as [| c r] eqn:Ht; simpl.
  - repeat split; try congruence; destruct H as [H | []]; discriminate.
  - split; [discriminate |]. split; [reflexivity |].
    intros name [H | [H | []]]; [discriminate |].
    injection H as <-. repeat split; [discriminate | simpl in *; lia].
Qed.

Lemma handleSubmit_name_witness :
  length (JS.str "  Flynn ") <= maxLength
  /\ handleSubmit (JS.str "  Flynn ") = [PreventDefault; OnStart (JS.str "Flynn")].
Proof.
  assert (H : length (JS.str "  Flynn ") <= maxLength) by (vm_compute; lia).
  split; [exact H |].
  destruct (handleSubmit_name (JS.str "  Flynn ") H) as (_ & Hcall & _).
  apply Hcall. vm_compute. discriminate.
Defined.

End StartMenuFacts.

(** ** The resolution scale *)

Section PerformanceManagerFacts.
Import PerformanceManager.
Variable fl : JS.Rounding.

Lemma max_min_clamp (s : JS.number) :
  s <> JS.NaN -> in_range (JS.max MIN_RESOLUTION_SCALE (JS.min (JS.Fin 1) s)).
Proof.
  intros Hs. unfold MIN_RESOLUTION_SCALE.
  destruct s as [| | q |]; [congruence | | | ]; simpl.
  - split; lra.
  - destruct (JS.Qltb q 1) eqn:H1; simpl.
    + apply Qltb_true in H1.
      destruct (JS.Qltb (1 # 2) q) eqn:H2; simpl.
      * apply Qltb_true in H2. split; lra.
      * split; lra.
    + split; lra.
  - split; lra.
Qed.

(** The factors [0.85], [0.95] and [1.02], once rounded. *)
Lemma reduction_bounds (c : Q) :
  (1 # 2 <= c <= 1)%Q -> (1 # 2 <= JS.rnd fl c <= 1)%Q.
Proof.
  intros [Hl Hu]. split.
  - rewrite <- (JS.rnd_half fl). now apply JS.rnd_mono.
  - rewrite <- (rnd_one fl). now apply JS.rnd_mono.
Qed.

Lemma increase_bound (c : Q) : (1 <= c)%Q -> (1 <= JS.rnd fl c)%Q.
Proof. intros H. rewrite <- (rnd_one fl). now apply JS.rnd_mono. Qed.

Lemma decreased_in_range (q c : Q) :
  (1 # 2 <= q <= 1)%Q -> (1 # 2 <= c <= 1)%Q ->
  in_range (JS.max (JS.mul fl (JS.Fin q) (JS.Fin (JS.rnd fl c))) MIN_RESOLUTION_SCALE).
Proof.
  intros Hq Hc. pose proof (reduction_bounds c Hc) as Hr. simpl.
  destruct (JS.Qltb _ _) eqn:H; simpl; [split; lra |].
  apply Qltb_false in H. split; [exact H |].
  rewrite <- (rnd_one fl). apply JS.rnd_mono. nra.
Qed.

Lemma increased_in_range (q c : Q) :
  (1 # 2 <= q <= 1)%Q -> (1 <= c)%Q ->
  in_range (JS.min (JS.mul fl (JS.Fin q) (JS.Fin (JS.rnd fl c))) (JS.Fin 1)).
Proof.
  intros Hq Hc. pose proof (increase_bound c Hc) as Hr. simpl.
  destruct (JS.Qltb _ _) eqn:H; simpl; [split; lra |].
  apply Qltb_false in H. split; [| exact H].
  rewrite <- (JS.rnd_half fl). apply JS.rnd_mono. nra.
Qed.

Lemma adjust_in_range (avgFps : JS.number) (now : Q) (pm : t) :
  in_range (resolutionScale pm) -> in_range (resolutionScale (adjust fl avgFps now pm)).
Proof.
  intros Hin. unfold adjust.
  destruct (resolutionScale pm) as [| | q |] eqn:Hrs; try contradiction.
  destruct (JS.lt avgFps LOW_FPS_THRESHOLD).
  - match goal with |- context [JS.max ?a ?b] => assert (Hnew : in_range (JS.max a b)) end.
    { destruct (JS.lt avgFps (JS.Fin 20));
        apply decreased_in_range; try exact Hin; split; lra. }
    destruct (JS.gt _ _); simpl; [exact Hnew | now rewrite Hrs].
  - destruct (JS.gt avgFps HIGH_FPS_THRESHOLD && JS.lt (JS.Fin q) (JS.Fin 1)).
    + match goal with |- context [JS.min ?a ?b] => assert (Hnew : in_range (JS.min a b)) end.
      { apply increased_in_range; [exact Hin | lra]. }
      destruct (JS.gt _ _); simpl; [exact Hnew | now rewrite Hrs].
    + now rewrite Hrs.
Qed.

Lemma update_in_range (now : Q) (pm : t) :
  in_range (resolutionScale pm) -> in_range (resolutionScale (update fl now pm)).
Proof.
  intros Hin. unfold update.
  destruct (negb (isEnabled pm)); [exact Hin |].
  destruct (Qle_bool _ _); [| exact Hin].
  destruct (JS.Qltb _ _); [exact Hin |].
  apply adjust_in_range. exact Hin.
Qed.

Lemma setEnabled_in_range (enabled : bool) (pm : t) :
  in_range (resolutionScale pm) -> in_range (resolutionScale (setEnabled enabled pm)).
Proof.
  intros Hin. destruct enabled; simpl; [exact Hin | split; lra].
Qed.

(** Every call other than [setResolutionScale(NaN)] keeps the scale in
    range. *)
Lemma call_in_range (c : Call) (pm : t) :
  (forall now, c <> SetResolutionScale JS.NaN now) ->
  in_range (resolutionScale pm) -> in_range (resolutionScale (call fl c pm)).
Proof.
  intros Hc Hin. destruct c as [now | fps | enabled | scale now]; simpl.
  - now apply update_in_range.
  - exact Hin.
  - now apply setEnabled_in_range.
  - apply max_min_clamp. intros ->. now apply (Hc now).
Qed.

(** From a fresh manager, the scale stays within [0.5, 1.0] for as long
    as [setResolutionScale] is not handed [NaN]. *)
Lemma run_in_range (cs : list Call) :
  (forall now, ~ In (SetResolutionScale JS.NaN now) cs) ->
  in_range (resolutionScale (run fl cs new)).
Proof.
  unfold run. assert (H0 : in_range (resolutionScale new)) by (simpl; split; lra).
  revert H0. generalize new as pm.
  induction cs as [| c cs IH]; intros pm Hin Hcs; simpl; [exact Hin |].
  apply IH.
  - apply call_in_range; [| exact Hin]. intros now ->. apply (Hcs now). now left.
  - intros now Hnow. apply (Hcs now). now right.
Qed.

End PerformanceManagerFacts.

(** C10. [setResolutionScale(NaN)] on a fresh manager, whose scale is 1.0,
    leaves the scale [NaN]: [Math.min(1.0, NaN)] is [NaN] and so is
    [Math.max(0.5, NaN)].  The scale is then outside [0.5, 1.0]. *)
Theorem setResolutionScale_NaN :
  PerformanceManager.in_range
    (PerformanceManager.resolutionScale PerformanceManager.new)
  /\ PerformanceManager.resolutionScale
       (PerformanceManager.setResolutionScale JS.NaN 0 PerformanceManager.new) = JS.NaN
  /\ ~ PerformanceManager.in_range
         (PerformanceManager.resolutionScale
            (PerformanceManager.setResolutionScale JS.NaN 0 PerformanceManager.new)).
Proof.
  split; [simpl; split; lra |]. split; [reflexivity |]. simpl. tauto.
Qed.

(** ** The frame callback and its two clocks *)

Section GameRendererClocks.
Import GameRenderer.
Variable fl : JS.Rounding.
Variable advance : Q -> option Vector3.t -> MultiplayerManager.RemotePlayer ->
                   MultiplayerManager.RemotePlayer.
Variable gameClient : GameClient.

Lemma add_from_game_state_clocks (g : t) (entry : JS.string * PlayerEntry) :
  lastUpdateTime (add_from_game_state gameClient g entry) = lastUpdateTime g
  /\ lastEnemyUpdateTime (add_from_game_state gameClient g entry) = lastEnemyUpdateTime g.
Proof.
  destruct entry as [id [[p |]]]; simpl; [| tauto].
  destruct (negb _); simpl; tauto.
Qed.

Lemma on_game_state_clocks (players : list (JS.string * PlayerEntry)) (g : t) :
  lastUpdateTime (on_game_state gameClient players g) = lastUpdateTime g
  /\ lastEnemyUpdateTime (on_game_state gameClient players g) = lastEnemyUpdateTime g.
Proof.
  unfold on_game_state. revert g.
  induction players as [| entry players IH]; intros g; simpl; [tauto |].
  destruct (IH (add_from_game_state gameClient g entry)) as [-> ->].
  apply add_from_game_state_clocks.
Qed.

(** No handler touches a clock. *)
Lemma handle_clocks (m : NetworkMessage) (g : t) :
  lastUpdateTime (handle gameClient m g) = lastUpdateTime g
  /\ lastEnemyUpdateTime (handle gameClient m g) = lastEnemyUpdateTime g.
Proof.
  destruct m; simpl; try tauto. apply on_game_state_clocks.
Qed.

Lemma useFrame_send (f : Frame) (g : t) :
  existsb isSend (snd (useFrame fl advance f g)) = true ->
  (lastUpdateTime g + 100 < now f)%Q
  /\ lastUpdateTime (fst (useFrame fl advance f g)) = now f.
Proof.
  unfold useFrame, withPlayerPos, updateInterval.
  destruct (playerPos f) as [p |]; simpl.
  - destruct (JS.Qltb 100 _) eqn:Hsend; simpl.
    + intros _. split; [| reflexivity].
      pose proof (rnd_gap fl 100 (now f) (lastUpdateTime g)) as H.
      simpl in H. apply H; [vm_compute; discriminate | exact Hsend].
    + destruct (cameraController g), (multiplayerManager g), (JS.Qltb enemyUpdateInterval _);
        simpl; discriminate.
  - destruct (cameraController g), (multiplayerManager g); simpl; discriminate.
Qed.

Lemma useFrame_no_send (f : Frame) (g : t) :
  existsb isSend (snd (useFrame fl advance f g)) = false ->
  lastUpdateTime (fst (useFrame fl advance f g)) = lastUpdateTime g.
Proof.
  unfold useFrame, withPlayerPos, updateInterval.
  destruct (playerPos f) as [p |]; simpl; [| reflexivity].
  destruct (JS.Qltb 100 _) eqn:Hsend; simpl; [| reflexivity].
  destruct (cameraController g), (multiplayerManager g), (JS.Qltb enemyUpdateInterval _);
    simpl; discriminate.
Qed.

Lemma useFrame_refresh (f : Frame) (g : t) :
  existsb isRefresh (snd (useFrame fl advance f g)) = true ->
  (lastEnemyUpdateTime g + 200 < now f)%Q
  /\ lastEnemyUpdateTime (fst (useFrame fl advance f g)) = now f.
Proof.
  unfold useFrame, withPlayerPos, enemyUpdateInterval.
  destruct (playerPos f) as [p |]; simpl.
  - destruct (JS.Qltb 200 _) eqn:Hrefresh; simpl.
    + intros _. split; [| reflexivity].
      pose proof (rnd_gap fl 200 (now f) (lastEnemyUpdateTime g)) as H.
      simpl in H. apply H; [vm_compute; discriminate | exact Hrefresh].
    + destruct (cameraController g), (multiplayerManager g), (JS.Qltb updateInterval _);
        simpl; discriminate.
  - destruct (cameraController g), (multiplayerManager g); simpl; discriminate.
Qed.

(** The refresh clock never runs backwards over a frame, whether or not
    the list is refreshed. *)
Lemma useFrame_enemy_clock (f : Frame) (g : t) :
  (lastEnemyUpdateTime g <= lastEnemyUpdateTime (fst (useFrame fl advance f g)))%Q.
Proof.
  unfold useFrame, withPlayerPos, enemyUpdateInterval.
  destruct (playerPos f) as [p |]; simpl; [| lra].
  destruct (JS.Qltb 200 _) eqn:Hrefresh; simpl; [| lra].
  pose proof (rnd_gap fl 200 (now f) (lastEnemyUpdateTime g)) as H.
  simpl in H. assert ((lastEnemyUpdateTime g + 200 < now f)%Q).
  { apply H; [vm_compute; discriminate | exact Hrefresh]. }
  lra.
Qed.

End GameRendererClocks.

(** ** Throttling *)

(** Instants that are pairwise more than [d] apart: at most one of them
    falls in a window of length [d]. *)
Lemma window_beyond (w d : Q) (ts : list Q) :
  Forall (fun t => (w + d < t)%Q) ts -> List.filter (GameRenderer.inWindow w d) ts = [].
Proof.
  induction 1 as [| t ts Ht _ IH]; simpl; [reflexivity |].
  unfold GameRenderer.inWindow at 1.
  replace (Qle_bool t (w + d)) with false; [now rewrite andb_false_r |].
  symmetry. apply not_true_iff_false. rewrite Qle_bool_iff. lra.
Qed.

Lemma spaced_window (d : Q) (ts : list Q) :
  StronglySorted (fun a b => (a + d < b)%Q) ts ->
  forall w, length (List.filter (GameRenderer.inWindow w d) ts) <= 1.
Proof.
  induction 1 as [| t ts _ IH Hall]; intros w; simpl; [lia |].
  destruct (GameRenderer.inWindow w d t) eqn:Hin; [| apply IH].
  simpl. rewrite window_beyond; [simpl; lia |].
  unfold GameRenderer.inWindow in Hin. apply andb_true_iff in Hin as [Hw _].
  apply Qle_bool_iff in Hw.
  eapply List.Forall_impl; [| exact Hall]. simpl. intros b Hb. lra.
Qed.

Lemma spaced_weaken (d : Q) (ts : list Q) :
  StronglySorted (fun a b => (a + d < b)%Q) ts ->
  StronglySorted (fun a b => (d <= b - a)%Q) ts.
Proof.
  induction 1 as [| t ts _ IH Hall]; constructor; [exact IH |].
  eapply List.Forall_impl; [| exact Hall]. simpl. intros b Hb. lra.
Qed.

Section Throttle.
Import GameRenderer.
Variable fl : JS.Rounding.
Variable advance : Q -> option Vector3.t -> MultiplayerManager.RemotePlayer ->
                   MultiplayerManager.RemotePlayer.
Variable gameClient : GameClient.

Lemma run_cons (ev : Event) (evs : list Event) (g : t) :
  run fl advance gameClient (ev :: evs) g =
  (fst (run fl advance gameClient evs (fst (step fl advance gameClient ev g))),
   (ev, snd (step fl advance gameClient ev g))
     :: snd (run fl advance gameClient evs (fst (step fl advance gameClient ev g)))).
Proof.
  simpl. destruct (step fl advance gameClient ev g) as [g1 e1]. simpl.
  now destruct (run fl advance gameClient evs g1).
Qed.

(** A clock [clk] of the renderer that gates effects of one [kind] by an
    interval [d]. *)
Variable clk : t -> Q.
Variable kind : Effect -> bool.
Variable d : Q.
Hypothesis d_nonneg : (0 <= d)%Q.
Hypothesis handle_clk : forall m g, clk (handle gameClient m g) = clk g.
Hypothesis frame_clk : forall f g, (clk g <= clk (fst (useFrame fl advance f g)))%Q.
Hypothesis frame_kind :
  forall f g, existsb kind (snd (useFrame fl advance f g)) = true ->
              (clk g + d < now f)%Q /\ clk (fst (useFrame fl advance f g)) = now f.

Lemma gated_spaced (evs : list Event) (g : t) :
  Forall (fun t => (clk g + d < t)%Q) (timesOf kind (snd (run fl advance gameClient evs g)))
  /\ StronglySorted (fun a b => (a + d < b)%Q)
       (timesOf kind (snd (run fl advance gameClient evs g))).
Proof.
  revert g. induction evs as [| ev evs IH]; intros g.
  - simpl. split; constructor.
  - rewrite run_cons. unfold timesOf. simpl. fold (timesOf kind).
    destruct (IH (fst (step fl advance gameClient ev g))) as [Hall Hsorted].
    destruct ev as [m | f]; simpl in *.
    + rewrite handle_clk in Hall. split; assumption.
    + pose proof (frame_clk f g) as Hmono.
      destruct (existsb kind _) eqn:Hk; simpl.
      * destruct (frame_kind f g Hk) as [Hgap Hnow]. rewrite Hnow in Hall.
        split; constructor; try assumption.
        eapply List.Forall_impl; [| exact Hall]. simpl. intros b Hb. lra.
      * split; [| exact Hsorted].
        eapply List.Forall_impl; [| exact Hall]. simpl. intros b Hb. lra.
Qed.

End Throttle.

Section GameRendererFacts.
Import GameRenderer.
Variable fl : JS.Rounding.
Variable advance : Q -> option Vector3.t -> MultiplayerManager.RemotePlayer ->
                   MultiplayerManager.RemotePlayer.
Variable gameClient : GameClient.

Local Abbreviation run := (GameRenderer.run fl advance gameClient).
Local Abbreviation useFrame := (GameRenderer.useFrame fl advance).

Lemma useFrame_update_clock (f : Frame) (g : t) :
  (lastUpdateTime g <= lastUpdateTime (fst (useFrame f g)))%Q.
Proof.
  destruct (existsb isSend (snd (useFrame f g))) eqn:Hs.
  - destruct (useFrame_send fl advance f g Hs) as [Hgap ->]. lra.
  - rewrite (useFrame_no_send fl advance f g Hs). lra.
Qed.

Lemma sends_spaced (evs : list Event) (g : t) :
  StronglySorted (fun a b => (a + 100 < b)%Q) (sendTimes (snd (run evs g))).
Proof.
  apply (gated_spaced fl advance gameClient lastUpdateTime isSend 100).
  - lra.
  - intros m g'. apply handle_clocks.
  - apply useFrame_update_clock.
  - apply useFrame_send.
Qed.

Lemma refreshes_spaced (evs : list Event) (g : t) :
  StronglySorted (fun a b => (a + 200 < b)%Q) (refreshTimes (snd (run evs g))).
Proof.
  apply (gated_spaced fl advance gameClient lastEnemyUpdateTime isRefresh 200).
  - lra.
  - intros m g'. apply handle_clocks.
  - apply useFrame_enemy_clock.
  - apply useFrame_refresh.
Qed.

(** C1. A frame sends the position update only when more than 100 ms,
    hence at least 100 ms, have gone by on the clock since
    [lastUpdateTime], which the send then sets to the present instant.
    In any run of the renderer, a send therefore comes at least 100 ms
    after every earlier one, and no window of 100 ms, ends included, holds
    more than one send. *)
Theorem position_updates_throttled (evs : list Event) (g : t) :
  (forall f g0,
      existsb isSend (snd (useFrame f g0)) = true ->
      (100 <= now f - lastUpdateTime g0)%Q
      /\ lastUpdateTime (fst (useFrame f g0)) = now f)
  /\ StronglySorted (fun a b => (100 <= b - a)%Q) (sendTimes (snd (run evs g)))
  /\ forall w, length (List.filter (inWindow w 100) (sendTimes (snd (run evs g)))) <= 1.
Proof.
  split; [| split].
  - intros f g0 Hs. destruct (useFrame_send fl advance f g0 Hs) as [Hgap Hnow].
    split; [lra | exact Hnow].
  - apply spaced_weaken, sends_spaced.
  - apply spaced_window, sends_spaced.
Qed.

(** Once the manager exists, it exists for good. *)
Lemma on_game_state_manager (players : list (JS.string * PlayerEntry)) (g : t) :
  is_Some (multiplayerManager g) ->
  is_Some (multiplayerManager (on_game_state gameClient players g)).
Proof.
  unfold on_game_state. revert g.
  induction players as [| [id [[p |]]] players IH]; intros g Hg; simpl; auto.
  apply IH. destruct (negb _); [| exact Hg].
  simpl. destruct Hg as [m ->]. simpl. eauto.
Qed.

Lemma step_manager (ev : Event) (g : t) :
  is_Some (multiplayerManager g) ->
  is_Some (multiplayerManager (fst (step fl advance gameClient ev g))).
Proof.
  intros Hg. destruct ev as [[id | id | id p | players] | f]; simpl.
  - destruct Hg as [m ->]. simpl. eauto.
  - destruct Hg as [m ->]. simpl. eauto.
  - destruct Hg as [m ->]. simpl. eauto.
  - now apply on_game_state_manager.
  - unfold GameRenderer.useFrame, withPlayerPos.
    destruct Hg as [m Hm]. destruct (playerPos f); simpl; rewrite Hm; simpl; eauto.
Qed.

(** What a frame does to an initialised manager, and the one call of
    [update] it makes. *)
Lemma useFrame_manager_update (f : Frame) (g : t) (m : MultiplayerManager.t) :
  multiplayerManager g = Some m ->
  List.filter isManagerUpdate (snd (useFrame f g)) = [ManagerUpdate (delta f)]
  /\ multiplayerManager (fst (useFrame f g)) =
     Some (MultiplayerManager.update advance (delta f)
             match playerPos f with
             | Some p => MultiplayerManager.setLocalPlayerPosition p m
             | None => m
             end).
Proof.
  intros Hm. unfold GameRenderer.useFrame, withPlayerPos. rewrite Hm.
  destruct (playerPos f) as [p |]; simpl.
  - destruct (cameraController g), (JS.Qltb updateInterval _),
      (JS.Qltb enemyUpdateInterval _); simpl; split; reflexivity.
  - rewrite Hm. destruct (cameraController g); simpl; split; reflexivity.
Qed.

(** C4. In any run of a renderer whose manager is initialised, every
    frame calls the manager's [update] exactly once, with the frame's
    [delta]: the frames without a player position and the frames before
    which no message came in are no exception.  The handlers of messages
    call it not at all. *)
Theorem manager_update_every_frame (evs : list Event) (g : t) :
  is_Some (multiplayerManager g) ->
  Forall (fun entry =>
            match entry with
            | (Tick f, es) => List.filter isManagerUpdate es = [ManagerUpdate (delta f)]
            | (Message _, es) => es = []
            end)
         (snd (run evs g)).
Proof.
  revert g. induction evs as [| ev evs IH]; intros g Hg.
  - constructor.
  - rewrite run_cons. simpl. constructor.
    + destruct ev as [m | f]; simpl; [reflexivity |].
      destruct Hg as [m Hm]. now apply (useFrame_manager_update f g m).
    + apply IH. now apply step_manager.
Qed.

End GameRendererFacts.

(** ** The two clocks do not see each other *)

Section ClockIndependence.
Import GameRenderer.
Variable fl : JS.Rounding.
Variable advance : Q -> option Vector3.t -> MultiplayerManager.RemotePlayer ->
                   MultiplayerManager.RemotePlayer.
Variable gameClient : GameClient.

Local Abbreviation run := (GameRenderer.run fl advance gameClient).
Local Abbreviation step := (GameRenderer.step fl advance gameClient).
Local Abbreviation useFrame := (GameRenderer.useFrame fl advance).

Lemma onManager_id (g : t) : onManager (fun m => m) g = g.
Proof. destruct g as [c [m |] a b]; reflexivity. Qed.

Lemma onManager_compose (f1 f2 : MultiplayerManager.t -> MultiplayerManager.t) (g : t) :
  onManager f2 (onManager f1 g) = onManager (fun m => f2 (f1 m)) g.
Proof. destruct g as [c [m |] a b]; reflexivity. Qed.

(** A handler does nothing but act on the manager, in a way the clocks
    have no part in. *)
Lemma on_game_state_onManager (players : list (JS.string * PlayerEntry)) :
  exists F, forall g, on_game_state gameClient players g = onManager F g.
Proof.
  unfold on_game_state.
  induction players as [| [id [[p |]]] players [F HF]]; simpl.
  - exists (fun m => m). intros g. now rewrite onManager_id.
  - destruct (negb _).
    + eexists. intros g. rewrite HF, onManager_compose. reflexivity.
    + exists F. exact HF.
  - exists F. exact HF.
Qed.

Lemma handle_onManager (m : NetworkMessage) :
  exists F, forall g, handle gameClient m g = onManager F g.
Proof.
  destruct m as [id | id | id p | players]; simpl;
    [eexists; intros g; reflexivity .. |].
  apply on_game_state_onManager.
Qed.

(** Two renderers with the same camera and the same manager: after one
    event they still have them in common; if they also agree on one of
    the clocks, they agree on it afterwards, and on what it gates. *)
Lemma step_agree (ev : Event) (g g' : t) :
  cameraController g = cameraController g' ->
  multiplayerManager g = multiplayerManager g' ->
  cameraController (fst (step ev g)) = cameraController (fst (step ev g'))
  /\ multiplayerManager (fst (step ev g)) = multiplayerManager (fst (step ev g'))
  /\ (lastEnemyUpdateTime g = lastEnemyUpdateTime g' ->
      lastEnemyUpdateTime (fst (step ev g)) = lastEnemyUpdateTime (fst (step ev g'))
      /\ existsb isRefresh (snd (step ev g)) = existsb isRefresh (snd (step ev g')))
  /\ (lastUpdateTime g = lastUpdateTime g' ->
      lastUpdateTime (fst (step ev g)) = lastUpdateTime (fst (step ev g'))
      /\ existsb isSend (snd (step ev g)) = existsb isSend (snd (step ev g'))).
Proof.
  destruct g as [c mm a b], g' as [c' mm' a' b']. simpl. intros <- <-.
  destruct ev as [m | f]; simpl.
  - destruct (handle_onManager m) as [F HF]. rewrite !HF. simpl. tauto.
  - unfold GameRenderer.useFrame, withPlayerPos. simpl.
    destruct (playerPos f) as [p |]; simpl.
    + split; [reflexivity |]. split; [reflexivity |]. split; intros <-; split.
      * destruct (JS.Qltb enemyUpdateInterval _); reflexivity.
      * destruct c, mm, (JS.Qltb updateInterval (JS.rnd fl (now f - a)%Q)),
          (JS.Qltb updateInterval (JS.rnd fl (now f - a')%Q)),
          (JS.Qltb enemyUpdateInterval _); reflexivity.
      * destruct (JS.Qltb updateInterval _); reflexivity.
      * destruct c, mm, (JS.Qltb updateInterval _),
          (JS.Qltb enemyUpdateInterval (JS.rnd fl (now f - b)%Q)),
          (JS.Qltb enemyUpdateInterval (JS.rnd fl (now f - b')%Q)); reflexivity.
    + split; [reflexivity |]. split; [reflexivity |].
      split; intros <-; split; reflexivity.
Qed.

Lemma run_agree (evs : list Event) (g g' : t) :
  cameraController g = cameraController g' ->
  multiplayerManager g = multiplayerManager g' ->
  (lastEnemyUpdateTime g = lastEnemyUpdateTime g' ->
   refreshTimes (snd (run evs g)) = refreshTimes (snd (run evs g')))
  /\ (lastUpdateTime g = lastUpdateTime g' ->
      sendTimes (snd (run evs g)) = sendTimes (snd (run evs g'))).
Proof.
  revert g g'. induction evs as [| ev evs IH]; intros g g' Hc Hm.
  - split; reflexivity.
  - rewrite !run_cons.
    destruct (step_agree ev g g' Hc Hm) as (Hc1 & Hm1 & Hrefresh & Hsend).
    destruct (IH _ _ Hc1 Hm1) as [IHrefresh IHsend].
    unfold refreshTimes, sendTimes, timesOf. simpl.
    split; intros Heq.
    + destruct (Hrefresh Heq) as [Hclk Hsame].
      f_equal; [| now apply IHrefresh].
      destruct ev; [reflexivity |]. now rewrite Hsame.
    + destruct (Hsend Heq) as [Hclk Hsame].
      f_equal; [| now apply IHsend].
      destruct ev; [reflexivity |]. now rewrite Hsame.
Qed.

(** C6. A frame refreshes the enemy list only when more than 200 ms,
    hence at least 200 ms, have gone by on the clock since
    [lastEnemyUpdateTime], which the refresh sets to the present instant;
    in any run, a refresh comes at least 200 ms after every earlier one.
    Its clock is not the one of the broadcast: the instants of the
    refreshes are the same whatever [lastUpdateTime] holds, and the
    instants of the broadcasts are the same whatever
    [lastEnemyUpdateTime] holds. *)
Theorem enemy_refresh_throttled (evs : list Event) (g : t) :
  (forall f g0,
      existsb isRefresh (snd (useFrame f g0)) = true ->
      (200 <= now f - lastEnemyUpdateTime g0)%Q
      /\ lastEnemyUpdateTime (fst (useFrame f g0)) = now f)
  /\ StronglySorted (fun a b => (200 <= b - a)%Q) (refreshTimes (snd (run evs g)))
  /\ (forall time,
         refreshTimes (snd (run evs (withLastUpdateTime time g)))
         = refreshTimes (snd (run evs g)))
  /\ (forall time,
         sendTimes (snd (run evs (withLastEnemyUpdateTime time g)))
         = sendTimes (snd (run evs g))).
Proof.
  split; [| split; [| split]].
  - intros f g0 Hr. destruct (useFrame_refresh fl advance f g0 Hr) as [Hgap Hnow].
    split; [lra | exact Hnow].
  - apply spaced_weaken, refreshes_spaced.
  - intros time. now apply run_agree.
  - intros time. now apply run_agree.
Qed.

End ClockIndependence.

(** ** The registry of remote players *)

Section RegistryFacts.
Import MultiplayerManager.

Lemma addPlayer_localPlayerId (id : JS.string) (pos : option Position.t) (m : t) :
  localPlayerId (addPlayer id pos m) = localPlayerId m.
Proof.
  unfold addPlayer. destruct (is_local m id); [reflexivity |].
  destruct (players m !! id), pos; reflexivity.
Qed.

Lemma addPlayer_other (id k : JS.string) (pos : option Position.t) (m : t) :
  k <> id -> players (addPlayer id pos m) !! k = players m !! k.
Proof.
  intros Hk. unfold addPlayer. destruct (is_local m id); [reflexivity |].
  destruct (players m !! id), pos; simpl;
    try reflexivity; now rewrite lookup_insert_ne.
Qed.

(** A player that is not the local one is in the registry once added,
    at the position given, if one is given. *)
Lemma addPlayer_added (id : JS.string) (pos : option Position.t) (m : t) :
  localPlayerId m <> Some id ->
  exists rp, players (addPlayer id pos m) !! id = Some rp
             /\ forall p, pos = Some p -> targetPosition rp = Position.vector p.
Proof.
  intros Hl. unfold addPlayer, is_local.
  rewrite bool_decide_eq_false_2 by exact Hl.
  destruct (players m !! id) as [rp |] eqn:Hid, pos as [p |]; simpl.
  - eexists. rewrite lookup_insert_eq. split; [reflexivity |].
    now intros ? [= <-].
  - exists rp. split; [exact Hid | discriminate].
  - eexists. rewrite lookup_insert_eq. split; [reflexivity |].
    now intros ? [= <-].
  - eexists. rewrite lookup_insert_eq. split; [reflexivity | discriminate].
Qed.

Variable lid : JS.string.

(** The local player's id is the excluded one and is not in the
    registry. *)
Local Abbreviation excluded m := (localPlayerId m = Some lid /\ players m !! lid = None).

Lemma setLocalPlayerId_new_excluded : excluded (setLocalPlayerId lid new).
Proof. split; [reflexivity | apply lookup_empty]. Qed.

Lemma addPlayer_excluded (id : JS.string) (pos : option Position.t) (m : t) :
  excluded m -> excluded (addPlayer id pos m).
Proof.
  intros [Hl Hp]. split; [now rewrite addPlayer_localPlayerId |].
  destruct (decide (lid = id)) as [<- | Hne].
  - unfold addPlayer, is_local. now rewrite bool_decide_eq_true_2.
  - now rewrite addPlayer_other.
Qed.

Lemma removePlayer_excluded (id : JS.string) (m : t) :
  excluded m -> excluded (removePlayer id m).
Proof.
  intros [Hl Hp]. split; [exact Hl |]. simpl.
  rewrite lookup_delete. destruct (decide (id = lid)); [reflexivity | exact Hp].
Qed.

Lemma updatePlayerPosition_excluded
    (id : JS.string) (p : Position.t) (r : option Q) (m : t) :
  excluded m -> excluded (updatePlayerPosition id p r m).
Proof.
  intros [Hl Hp]. unfold updatePlayerPosition, is_local.
  destruct (decide (localPlayerId m = Some id)) as [Heq | Hne].
  - rewrite bool_decide_eq_true_2 by exact Heq. now split.
  - rewrite bool_decide_eq_false_2 by exact Hne.
    assert (id <> lid) by congruence.
    destruct (players m !! id); simpl; (split; [exact Hl |]);
      now rewrite lookup_insert_ne.
Qed.

Lemma setLocalPlayerPosition_excluded (p : Vector3.t) (m : t) :
  excluded m -> excluded (setLocalPlayerPosition p m).
Proof. intros [Hl Hp]. now split. Qed.

Lemma update_excluded
    (advance : Q -> option Vector3.t -> RemotePlayer -> RemotePlayer) (delta : Q) (m : t) :
  excluded m -> excluded (update advance delta m).
Proof.
  intros [Hl Hp]. split; [exact Hl |]. simpl. now rewrite lookup_fmap, Hp.
Qed.

Lemma clear_excluded (m : t) : excluded m -> excluded (clear m).
Proof. intros [Hl Hp]. split; [exact Hl | apply lookup_empty]. Qed.

(** The list for the minimap names players of the registry only. *)
Lemma getEnemyPositions_registered (m : t) (e : Enemy) :
  In e (getEnemyPositions m) -> is_Some (players m !! id e).
Proof.
  unfold getEnemyPositions. intros He.
  apply list_elem_of_In, list_elem_of_fmap in He as ([k rp] & -> & Hk).
  apply elem_of_map_to_list in Hk. simpl. eauto.
Qed.

End RegistryFacts.

Section RemotePlayers.
Import GameRenderer.
Variable fl : JS.Rounding.
Variable advance : Q -> option Vector3.t -> MultiplayerManager.RemotePlayer ->
                   MultiplayerManager.RemotePlayer.
Variable gameClient : GameClient.
Variable lid : JS.string.

(** The manager of the renderer, if there is one, excludes [lid]. *)
Local Abbreviation excludes g :=
  (forall m, multiplayerManager g = Some m ->
             MultiplayerManager.localPlayerId m = Some lid
             /\ MultiplayerManager.players m !! lid = None).

Lemma onManager_excludes (F : MultiplayerManager.t -> MultiplayerManager.t) (g : t) :
  (forall m, MultiplayerManager.localPlayerId m = Some lid
             /\ MultiplayerManager.players m !! lid = None ->
             MultiplayerManager.localPlayerId (F m) = Some lid
             /\ MultiplayerManager.players (F m) !! lid = None) ->
  excludes g -> excludes (onManager F g).
Proof.
  intros HF Hg m'. simpl.
  destruct (multiplayerManager g) as [m |]; simpl; [| discriminate].
  intros [= <-]. apply HF, Hg. reflexivity.
Qed.

Lemma on_game_state_excludes (players : list (JS.string * PlayerEntry)) (g : t) :
  excludes g -> excludes (on_game_state gameClient players g).
Proof.
  unfold on_game_state. revert g.
  induction players as [| [id [[p |]]] players IH]; intros g Hg; simpl.
  - exact Hg.
  - apply IH. destruct (negb _); [| exact Hg].
    apply onManager_excludes; [| exact Hg]. apply addPlayer_excluded.
  - apply IH. exact Hg.
Qed.

Lemma handle_excludes (msg : NetworkMessage) (g : t) :
  excludes g -> excludes (handle gameClient msg g).
Proof.
  intros Hg. destruct msg as [id | id | id p | players]; simpl.
  - apply onManager_excludes; [| exact Hg]. apply addPlayer_excluded.
  - apply onManager_excludes; [| exact Hg]. apply removePlayer_excluded.
  - apply onManager_excludes; [| exact Hg]. apply updatePlayerPosition_excluded.
  - now apply on_game_state_excludes.
Qed.

Lemma useFrame_excludes (f : Frame) (g : t) :
  excludes g -> excludes (fst (useFrame fl advance f g)).
Proof.
  intros Hg. unfold useFrame, withPlayerPos.
  destruct (playerPos f) as [p |]; simpl.
  - intros m'. destruct (multiplayerManager g) as [m |] eqn:Hm; simpl; [| discriminate].
    intros [= <-]. apply update_excluded, setLocalPlayerPosition_excluded.
    now apply Hg.
  - intros m'. destruct (multiplayerManager g) as [m |] eqn:Hm; simpl; [| discriminate].
    intros [= <-]. apply update_excluded. now apply Hg.
Qed.

Lemma run_excludes (evs : list Event) (g : t) :
  excludes g -> excludes (fst (run fl advance gameClient evs g)).
Proof.
  revert g. induction evs as [| ev evs IH]; intros g Hg; [exact Hg |].
  rewrite run_cons. simpl. apply IH.
  destruct ev as [msg | f]; simpl.
  - now apply handle_excludes.
  - now apply useFrame_excludes.
Qed.

(** C3. The renderer's first effect creates the manager and hands it the
    local player's id.  From then on, whatever messages come in and
    whatever frames are drawn, the local id is not in the registry of
    remote players, and no entry of [getEnemyPositions()] bears it:
    messages that echo the local id change nothing to that. *)
Theorem local_player_never_remote
    (evs : list Event) (g0 : t) (m : MultiplayerManager.t) :
  getPlayerId gameClient = Some lid ->
  multiplayerManager (fst (run fl advance gameClient evs (mount gameClient g0))) = Some m ->
  MultiplayerManager.players m !! lid = None
  /\ Forall (fun e => MultiplayerManager.id e <> lid)
            (MultiplayerManager.getEnemyPositions m).
Proof.
  intros Hid Hm.
  assert (Hmount : excludes (mount gameClient g0)).
  { intros m0. simpl. intros [= <-]. rewrite Hid.
    replace (orEmpty (Some lid)) with lid
      by (destruct lid; reflexivity).
    apply setLocalPlayerId_new_excluded. }
  destruct (run_excludes evs _ Hmount m Hm) as [_ Hnone].
  split; [exact Hnone |].
  apply List.Forall_forall. intros e He Heq.
  apply getEnemyPositions_registered in He as [rp Hrp].
  rewrite Heq, Hnone in Hrp. discriminate.
Qed.

(** What the handler of [game_state] does with one entry. *)
Lemma add_from_game_state_spec
    (g : t) (entry : JS.string * PlayerEntry) (m : MultiplayerManager.t) :
  multiplayerManager g = Some m ->
  exists m',
    multiplayerManager (add_from_game_state gameClient g entry) = Some m'
    /\ MultiplayerManager.localPlayerId m' = MultiplayerManager.localPlayerId m
    /\ (forall k, k <> fst entry ->
                  MultiplayerManager.players m' !! k = MultiplayerManager.players m !! k)
    /\ (forall p,
           position (snd entry) = Some p ->
           Some (fst entry) <> getPlayerId gameClient ->
           MultiplayerManager.localPlayerId m <> Some (fst entry) ->
           exists rp, MultiplayerManager.players m' !! fst entry = Some rp
                      /\ MultiplayerManager.targetPosition rp = Position.vector p).
Proof.
  intros Hm. destruct entry as [id [[p |]]]; simpl.
  - destruct (decide (Some id = getPlayerId gameClient)) as [Heq | Hne].
    + rewrite bool_decide_eq_true_2 by exact Heq. simpl.
      exists m. repeat split; auto. intros ? _ ?. contradiction.
    + rewrite bool_decide_eq_false_2 by exact Hne. simpl. rewrite Hm. simpl.
      eexists. split; [reflexivity |].
      split; [apply addPlayer_localPlayerId |].
      split; [intros k Hk; now apply addPlayer_other |].
      intros p' [= <-] _ Hl.
      destruct (addPlayer_added id (Some p) m Hl) as (rp & Hrp & Hpos).
      exists rp. split; [exact Hrp | now apply Hpos].
  - exists m. repeat split; auto. discriminate.
Qed.

(** Entries for other ids leave a player of the registry as it is. *)
Lemma on_game_state_other
    (players : list (JS.string * PlayerEntry)) (g : t) (m : MultiplayerManager.t)
    (id : JS.string) :
  multiplayerManager g = Some m ->
  ~ In id (List.map fst players) ->
  exists m',
    multiplayerManager (on_game_state gameClient players g) = Some m'
    /\ MultiplayerManager.localPlayerId m' = MultiplayerManager.localPlayerId m
    /\ MultiplayerManager.players m' !! id = MultiplayerManager.players m !! id.
Proof.
  unfold on_game_state. revert g m.
  induction players as [| entry players IH]; intros g m Hm Hid; simpl.
  - exists m. auto.
  - destruct (add_from_game_state_spec g entry m Hm) as (m1 & Hm1 & Hl1 & Hother & _).
    destruct (IH _ m1 Hm1) as (m2 & Hm2 & Hl2 & Hsame).
    { intros Hin. apply Hid. now right. }
    exists m2. split; [exact Hm2 |]. split; [congruence |].
    rewrite Hsame. apply Hother. intros ->. apply Hid. now left.
Qed.

(** C2, as the code has it.  When the renderer's manager excludes the id
    [getPlayerId()] returns, handling [game_state] puts into the registry,
    at its snapshot position, the player of every entry of the snapshot
    whose id is not the local one and which carries a position. *)
Theorem game_state_adds_positioned_players
    (players : list (JS.string * PlayerEntry)) (g : t) (m : MultiplayerManager.t)
    (id : JS.string) (p : Position.t) :
  getPlayerId gameClient = Some lid ->
  multiplayerManager g = Some m ->
  MultiplayerManager.localPlayerId m = Some lid ->
  NoDup (List.map fst players) ->
  In (id, {| position := Some p |}) players ->
  id <> lid ->
  exists m' rp,
    multiplayerManager (on_game_state gameClient players g) = Some m'
    /\ MultiplayerManager.players m' !! id = Some rp
    /\ MultiplayerManager.targetPosition rp = Position.vector p.
Proof.
  intros Hclient Hm Hl Hnodup Hin Hne. unfold on_game_state. revert g m Hm Hl.
  induction players as [| entry players IH]; intros g m Hm Hl; [destruct Hin |].
  change (List.map fst (entry :: players))
    with (fst entry :: List.map fst players) in Hnodup.
  apply NoDup_cons in Hnodup as [Hfresh Hnodup].
  rewrite list_elem_of_In in Hfresh. simpl.
  destruct (add_from_game_state_spec g entry m Hm) as (m1 & Hm1 & Hl1 & _ & Hadd).
  destruct Hin as [-> | Hin].
  - destruct (Hadd p) as (rp & Hrp & Hpos); try reflexivity; simpl.
    + rewrite Hclient. congruence.
    + rewrite Hl. congruence.
    + destruct (on_game_state_other players _ m1 id Hm1 Hfresh)
        as (m2 & Hm2 & _ & Hsame).
      exists m2, rp. split; [exact Hm2 |]. split; [| exact Hpos].
      rewrite Hsame. exact Hrp.
  - apply (IH Hnodup Hin _ m1 Hm1). congruence.
Qed.

End RemotePlayers.

(** ** Starting the game *)

Section GameSceneFacts.
Import GameScene.
Variable getArenaSize : TronGame -> Q.

(** C5. While the game has not started: if [connect] throws, the error
    reaches the handler of [handleGameStart], which logs it; [connect] is
    not tried again, [gameStarted] stays false, no [TronGame] is
    constructed or started and the arena size is not set.  Conversely the
    game is started, or a [TronGame] constructed, only when [connect] has
    succeeded. *)
Theorem game_starts_only_when_connected
    (name : JS.string) (result : ConnectResult) (s : t) :
  gameStarted s = false ->
  (forall error,
      result = Failed error ->
      snd (handleGameStart getArenaSize name result s)
        = [NewGameClient; Connect name; ConsoleError error]
      /\ gameStarted (fst (handleGameStart getArenaSize name result s)) = false
      /\ game (fst (handleGameStart getArenaSize name result s)) = game s
      /\ arenaSize (fst (handleGameStart getArenaSize name result s)) = arenaSize s
      /\ existsb constructsGame (snd (handleGameStart getArenaSize name result s)) = false)
  /\ (gameStarted (fst (handleGameStart getArenaSize name result s)) = true
      \/ existsb constructsGame (snd (handleGameStart getArenaSize name result s)) = true ->
      exists playerId, result = Connected playerId).
Proof.
  intros Hnot. split.
  - intros error ->. simpl. rewrite Hnot. repeat split; reflexivity.
  - destruct result as [playerId | error]; [eauto |].
    simpl. rewrite Hnot. intros [H | H]; discriminate.
Qed.

End GameSceneFacts.

(** ** Collisions *)

Section CollisionFacts.
Import CollisionEngine.

(** C7. Whatever the arena and the trails, a candidate position whose x or
    z coordinate is, in absolute value, at least half the arena's size is
    a collision: the bound [size/2] itself included. *)
Theorem checkCollision_boundary (e : t) (playerId : JS.string) (candidate : Vector2.t) :
  (size e / 2 <= Qabs (Vector2.x candidate))%Q
  \/ (size e / 2 <= Qabs (Vector2.z candidate))%Q ->
  checkCollision e playerId candidate = true.
Proof.
  intros H. unfold checkCollision.
  assert (Hout : outOfBounds e candidate = true).
  { unfold outOfBounds. apply orb_true_iff.
    destruct H as [H | H]; [left | right]; now apply Qle_bool_iff. }
  now rewrite Hout.
Qed.

Lemma In_removelast {A} (x : A) (l : list A) : In x (removelast l) -> In x l.
Proof.
  induction l as [| a [| b l] IH]; simpl; [tauto | tauto |].
  intros [-> | H]; [now left | right; now apply IH].
Qed.

Lemma existsb_false {A} (f : A -> bool) (l : list A) :
  (forall x, In x l -> f x = false) -> existsb f l = false.
Proof.
  intros H. apply not_true_iff_false. intros (x & Hx & Hf)%existsb_exists.
  rewrite (H x Hx) in Hf. discriminate.
Qed.

(** C8. A path that crosses a segment, other than the most recent one, of
    a tracked trail is reported as a collision.  A path that crosses, of all
    the segments of all the trails, at most the most recent segment of the
    mover's own trail is not reported as a collision on that account: the
    answer is then the one of the two other hazards, the arena's boundary
    and the other players, and it is no collision when the candidate is
    inside the arena and near no other player.  Nothing is asked of the
    most recent segment itself: the path may cross it or not. *)
Theorem checkCollision_trails (e : t) (playerId : JS.string) (candidate : Vector2.t) :
  (forall tid trail seg,
      trails e !! tid = Some trail ->
      In seg (removelast (segments trail)) ->
      intersects (path e playerId candidate) seg = true ->
      checkCollision e playerId candidate = true)
  /\ ((forall seg,
          In seg (removelast (segments (trailOf e playerId))) ->
          intersects (path e playerId candidate) seg = false) ->
      (forall tid trail seg,
          tid <> playerId ->
          trails e !! tid = Some trail ->
          In seg (segments trail) ->
          intersects (path e playerId candidate) seg = false) ->
      checkCollision e playerId candidate
        = outOfBounds e candidate || nearOtherPlayer e playerId candidate
      /\ (outOfBounds e candidate = false ->
          nearOtherPlayer e playerId candidate = false ->
          checkCollision e playerId candidate = false)).
Proof.
  split.
  - intros tid trail seg Htrail Hseg Hcross. unfold checkCollision.
    destruct (decide (tid = playerId)) as [-> | Hne].
    + assert (Hown : hitsOwnTrail e playerId candidate = true).
      { unfold hitsOwnTrail, trailOf. rewrite Htrail. simpl.
        apply existsb_exists. eauto. }
      rewrite Hown. now rewrite orb_true_r.
    + assert (Hother : hitsOtherTrail e playerId candidate = true).
      { unfold hitsOtherTrail. apply existsb_exists.
        exists (tid, trail). split.
        - apply list_elem_of_In, elem_of_map_to_list.
          now rewrite lookup_delete_ne.
        - simpl. apply existsb_exists. exists seg.
          split; [now apply In_removelast | exact Hcross]. }
      rewrite Hother. now rewrite orb_true_r.
  - intros Hown Hother.
    assert (Hself : hitsOwnTrail e playerId candidate = false)
      by (unfold hitsOwnTrail; now apply existsb_false).
    assert (Hrest : hitsOtherTrail e playerId candidate = false).
    { unfold hitsOtherTrail. apply existsb_false.
      intros [tid trail] Htid. simpl.
      apply list_elem_of_In, elem_of_map_to_list in Htid.
      apply existsb_false. intros seg Hseg.
      destruct (decide (tid = playerId)) as [-> | Hne].
      - rewrite lookup_delete_eq in Htid. discriminate.
      - rewrite lookup_delete_ne in Htid by congruence.
        now apply (Hother tid trail). }
    assert (Heq : checkCollision e playerId candidate
                  = outOfBounds e candidate || nearOtherPlayer e playerId candidate).
    { unfold checkCollision. rewrite Hself, Hrest. now rewrite !orb_false_r. }
    split; [exact Heq |].
    intros Hin Hfar. now rewrite Heq, Hin, Hfar.
Qed.

End CollisionFacts.

(** ** The properties at work on the sample data *)

Section Instances.
Import Examples.

Lemma position_updates_throttled_witness :
  GameRenderer.sendTimes
    (snd (GameRenderer.run JS.exact still client frames mounted)) = [150; 260; 361]%Q
  /\ forall w,
      length (List.filter (GameRenderer.inWindow w 100)
                (GameRenderer.sendTimes
                   (snd (GameRenderer.run JS.exact still client frames mounted)))) <= 1.
Proof.
  split; [reflexivity |].
  apply (position_updates_throttled JS.exact still client frames mounted).
Defined.

Lemma enemy_refresh_throttled_witness :
  GameRenderer.refreshTimes
    (snd (GameRenderer.run JS.exact still client frames mounted)) = [260]%Q
  /\ forall time,
      GameRenderer.refreshTimes
        (snd (GameRenderer.run JS.exact still client frames
                (GameRenderer.withLastUpdateTime time mounted)))
      = GameRenderer.refreshTimes
          (snd (GameRenderer.run JS.exact still client frames mounted)).
Proof.
  split; [reflexivity |].
  apply (enemy_refresh_throttled JS.exact still client frames mounted).
Defined.

Lemma manager_update_every_frame_witness :
  is_Some (GameRenderer.multiplayerManager mounted)
  /\ Forall (fun entry =>
               match entry with
               | (GameRenderer.Tick f, es) =>
                   List.filter GameRenderer.isManagerUpdate es
                   = [GameRenderer.ManagerUpdate (GameRenderer.delta f)]
               | (GameRenderer.Message _, es) => es = []
               end)
            (snd (GameRenderer.run JS.exact still client echoes mounted)).
Proof.
  assert (H : is_Some (GameRenderer.multiplayerManager mounted)) by (simpl; eauto).
  split; [exact H |].
  exact (manager_update_every_frame JS.exact still client echoes mounted H).
Defined.

Lemma local_player_never_remote_witness :
  GameRenderer.getPlayerId client = Some flynn
  /\ exists m,
      GameRenderer.multiplayerManager
        (fst (GameRenderer.run JS.exact still client echoes mounted)) = Some m
      /\ MultiplayerManager.players m !! flynn = None
      /\ Forall (fun e => MultiplayerManager.id e <> flynn)
                (MultiplayerManager.getEnemyPositions m).
Proof.
  split; [reflexivity |]. eexists. split; [reflexivity |].
  exact (local_player_never_remote JS.exact still client flynn echoes
           GameRenderer.initial _ eq_refl eq_refl).
Defined.

Lemma game_state_adds_positioned_players_witness :
  In (tron, {| GameRenderer.position := Some (at_ 5 6) |}) snapshot
  /\ tron <> flynn
  /\ exists m' rp,
      GameRenderer.multiplayerManager
        (GameRenderer.on_game_state client snapshot mounted) = Some m'
      /\ MultiplayerManager.players m' !! tron = Some rp
      /\ MultiplayerManager.targetPosition rp = Position.vector (at_ 5 6).
Proof.
  assert (Hin : In (tron, {| GameRenderer.position := Some (at_ 5 6) |}) snapshot)
    by (simpl; tauto).
  assert (Hne : tron <> flynn) by discriminate.
  assert (Hnodup : NoDup (List.map fst snapshot))
    by (apply (bool_decide_unpack _); vm_compute; exact I).
  split; [exact Hin |]. split; [exact Hne |].
  exact (game_state_adds_positioned_players client flynn snapshot mounted _
           tron (at_ 5 6) eq_refl eq_refl eq_refl Hnodup Hin Hne).
Defined.

(** C2, as it stands, fails on the snapshot entry of [clu]: its id is not
    the local one, yet, the entry having no position, handling
    [game_state] leaves [clu] out of the registry, where [player_joined]
    for [clu] puts it in. *)
Lemma game_state_skips_entry_without_position :
  In (clu, {| GameRenderer.position := None |}) snapshot
  /\ Some clu <> GameRenderer.getPlayerId client
  /\ (exists m,
         GameRenderer.multiplayerManager
           (GameRenderer.on_game_state client snapshot mounted) = Some m
         /\ MultiplayerManager.players m !! clu = None)
  /\ (exists m,
         GameRenderer.multiplayerManager
           (GameRenderer.on_player_joined clu mounted) = Some m
         /\ is_Some (MultiplayerManager.players m !! clu)).
Proof.
  split; [simpl; tauto |]. split; [discriminate |]. split.
  - eexists. split; [reflexivity |]. vm_compute. reflexivity.
  - eexists. split; [reflexivity |]. vm_compute. eauto.
Qed.

Lemma game_starts_only_when_connected_witness :
  GameScene.gameStarted (GameScene.onCreated GameScene.initial) = false
  /\ snd (GameScene.handleGameStart (fun _ => 500%Q) flynn
            (GameScene.Failed (JS.str "refused"))
            (GameScene.onCreated GameScene.initial))
     = [GameScene.NewGameClient; GameScene.Connect flynn;
        GameScene.ConsoleError (JS.str "refused")]
  /\ GameScene.gameStarted
       (fst (GameScene.handleGameStart (fun _ => 500%Q) flynn
               (GameScene.Failed (JS.str "refused"))
               (GameScene.onCreated GameScene.initial))) = false.
Proof.
  split; [reflexivity |].
  destruct (game_starts_only_when_connected (fun _ => 500%Q) flynn
              (GameScene.Failed (JS.str "refused"))
              (GameScene.onCreated GameScene.initial) eq_refl) as [Hfail _].
  destruct (Hfail (JS.str "refused") eq_refl) as (Hlog & Hstarted & _).
  split; [exact Hlog | exact Hstarted].
Defined.

Lemma checkCollision_boundary_witness :
  (CollisionEngine.size (arena 500) / 2 <= Qabs (Vector2.x (pt 250 0)))%Q
  /\ CollisionEngine.checkCollision (arena 500) flynn (pt 250 0) = true.
Proof.
  assert (H : (CollisionEngine.size (arena 500) / 2 <= Qabs (Vector2.x (pt 250 0)))%Q)
    by (apply Qle_bool_iff; reflexivity).
  split; [exact H |].
  apply (checkCollision_boundary (arena 500) flynn (pt 250 0)). left. exact H.
Defined.

End Instances.

Section CollisionInstances.
Import Examples CollisionEngine.

Lemma checkCollision_trails_witness :
  checkCollision (arena 10) flynn (pt 2 (-1)) = true
  /\ last (segments (trailOf (arena 10) flynn)) = Some (pt 4 0, pt 4 3)
  /\ intersects (path (arena 10) flynn (pt 4 (9 # 2))) (pt 4 0, pt 4 3) = true
  /\ checkCollision (arena 10) flynn (pt 4 (9 # 2)) = false.
Proof.
  destruct (checkCollision_trails (arena 10) flynn (pt 2 (-1))) as [Hhit _].
  destruct (checkCollision_trails (arena 10) flynn (pt 4 (9 # 2))) as [_ Hmiss].
  split; [| split; [reflexivity | split; [vm_compute; reflexivity |]]].
  - apply (Hhit flynn [pt 0 0; pt 4 0; pt 4 3] (pt 0 0, pt 4 0)).
    + apply lookup_insert_eq.
    + simpl. left. reflexivity.
    + vm_compute. reflexivity.
  - apply Hmiss.
    + intros seg Hseg. vm_compute in Hseg.
      destruct Hseg as [<- | []]. vm_compute. reflexivity.
    + intros tid trail seg Hne Htrail Hseg. simpl in Htrail.
      rewrite lookup_insert_ne in Htrail by congruence.
      destruct (decide (clu = tid)) as [<- | Hclu].
      * rewrite lookup_insert_eq in Htrail. injection Htrail as <-.
        destruct Hseg as [<- | []]. vm_compute. reflexivity.
      * rewrite lookup_insert_ne in Htrail by exact Hclu.
        rewrite lookup_empty in Htrail. discriminate.
    + vm_compute. reflexivity.
    + vm_compute. reflexivity.
Defined.

(** The scenarios of the specification: a position past the boundary,
    a path across another player's trail, a path clear of it. *)
Example collision_scenarios :
  let engine mover start :=
    {| size := 500;
       trails := <[mover := [start]]> (<[clu := [pt 0 0; pt 10 0]]> ∅);
       positions := ∅;
       epsilon := 1 # 10;
       proximity := 1 |} in
  checkCollision (engine flynn (pt 0 0)) flynn (pt 251 0) = true
  /\ checkCollision (engine flynn (pt 5 (-1))) flynn (pt 5 1) = true
  /\ checkCollision (engine flynn (pt 5 5)) flynn (pt 5 15) = false.
Proof. repeat split; vm_compute; reflexivity. Qed.

End CollisionInstances.

(** * Further properties *)

(** ** The resolution tuner *)

Section TunerFacts.
Import PerformanceManager.
Variable fl : JS.Rounding.

Lemma run_in_range_witness :
  (forall now, ~ In (SetResolutionScale JS.NaN now) Samples.calls)
  /\ in_range (resolutionScale (run JS.exact Samples.calls new)).
Proof.
  assert (H : forall now, ~ In (SetResolutionScale JS.NaN now) Samples.calls).
  { intros now Hin. simpl in Hin.
    repeat (destruct Hin as [Hin | Hin]; [discriminate Hin |]). exact Hin. }
  split; [exact H |]. exact (run_in_range JS.exact Samples.calls H).
Defined.

Lemma adjust_fields (avgFps : JS.number) (now : Q) (pm : t) :
  lastFpsTime (adjust fl avgFps now pm) = lastFpsTime pm
  /\ frameCount (adjust fl avgFps now pm) = frameCount pm
  /\ currentFps (adjust fl avgFps now pm) = currentFps pm
  /\ fpsHistory (adjust fl avgFps now pm) = fpsHistory pm
  /\ isEnabled (adjust fl avgFps now pm) = isEnabled pm.
Proof.
  unfold adjust.
  destruct (JS.lt avgFps LOW_FPS_THRESHOLD).
  - destruct (JS.gt _ _); simpl; tauto.
  - destruct (_ && _); [| tauto]. destruct (JS.gt _ _); simpl; tauto.
Qed.

Lemma record_fps_length (fps : JS.number) (h : list JS.number) :
  length h = FPS_HISTORY_SIZE -> length (record_fps fps h) = FPS_HISTORY_SIZE.
Proof.
  intros Hh. unfold record_fps. rewrite length_app, Hh. simpl.
  destruct (h ++ [fps]) as [| x r] eqn:Hr.
  - destruct h; discriminate.
  - simpl. apply (f_equal (@length _)) in Hr. rewrite length_app, Hh in Hr.
    simpl in Hr. unfold FPS_HISTORY_SIZE in *. lia.
Qed.

Lemma call_history_length (c : Call) (pm : t) :
  length (fpsHistory pm) = FPS_HISTORY_SIZE ->
  length (fpsHistory (call fl c pm)) = FPS_HISTORY_SIZE.
Proof.
  intros Hh. destruct c as [now | fps | enabled | scale now]; simpl; try exact Hh.
  - unfold update. destruct (negb _); [exact Hh |].
    destruct (Qle_bool _ _); [| exact Hh].
    destruct (JS.Qltb _ _); simpl.
    + now apply record_fps_length.
    + destruct (adjust_fields (average fl (slice_last 10
                 (record_fps (JS.of_Z (frameCount pm + 1)) (fpsHistory pm)))) now
                 {| lastFpsTime := now; frameCount := 0;
                    currentFps := JS.of_Z (frameCount pm + 1);
                    targetFps := targetFps pm;
                    resolutionScale := resolutionScale pm;
                    fpsHistory := record_fps (JS.of_Z (frameCount pm + 1)) (fpsHistory pm);
                    isEnabled := isEnabled pm;
                    lastResolutionChangeTime := lastResolutionChangeTime pm |})
        as (_ & _ & _ & -> & _).
      simpl. now apply record_fps_length.
  - destruct enabled; [reflexivity | exact Hh].
Qed.

(** The history of frame rates holds 20 samples, no more and no fewer,
    whatever is called on a fresh manager. *)
Theorem fpsHistory_length (cs : list Call) :
  length (fpsHistory (run fl cs new)) = FPS_HISTORY_SIZE.
Proof.
  unfold run.
  assert (H0 : length (fpsHistory new) = FPS_HISTORY_SIZE) by apply repeat_length.
  revert H0. generalize new as pm.
  induction cs as [| c cs IH]; intros pm Hpm; simpl; [exact Hpm |].
  apply IH. now apply call_history_length.
Qed.

(** Once dynamic scaling is switched off, the scale is back at 1.0 and
    [update] does nothing at all, however often it is called: frames are
    not even counted. *)
Theorem disabled_updates_ignored (nows : list Q) (pm : t) :
  run fl (List.map Update nows) (setEnabled false pm) = setEnabled false pm
  /\ resolutionScale (run fl (List.map Update nows) (setEnabled false pm)) = JS.Fin 1.
Proof.
  assert (H : run fl (List.map Update nows) (setEnabled false pm) = setEnabled false pm).
  { unfold run. induction nows as [| now nows IH]; simpl; [reflexivity | exact IH]. }
  rewrite H. split; reflexivity.
Qed.

Lemma adjust_change (avgFps : JS.number) (now : Q) (pm : t) :
  resolutionScale (adjust fl avgFps now pm) <> resolutionScale pm ->
  lastResolutionChangeTime (adjust fl avgFps now pm) = now.
Proof.
  unfold adjust.
  destruct (JS.lt avgFps LOW_FPS_THRESHOLD).
  - destruct (JS.gt _ _); simpl; congruence.
  - destruct (_ && _); [| congruence].
    destruct (JS.gt _ _); simpl; congruence.
Qed.

(** [update] changes the scale only on a manager that is switched on, on
    a call that takes a sample of the frame rate, and when the clock, as the
    code reads it, is at least 2000 ms past the last change; it then notes
    the present instant as that of the last change. *)
Theorem update_change_throttled (now : Q) (pm : t) :
  resolutionScale (update fl now pm) <> resolutionScale pm ->
  isEnabled pm = true
  /\ (1000 <= JS.rnd fl (now - lastFpsTime pm))%Q
  /\ (2000 <= JS.rnd fl (now - lastResolutionChangeTime pm))%Q
  /\ lastResolutionChangeTime (update fl now pm) = now.
Proof.
  unfold update. destruct (isEnabled pm); simpl; [| congruence].
  destruct (Qle_bool _ _) eqn:Hsample; simpl; [| congruence].
  destruct (JS.Qltb _ _) eqn:Hrecent; simpl; [congruence |].
  apply Qle_bool_iff in Hsample. apply Qltb_false in Hrecent.
  unfold MIN_CHANGE_INTERVAL in Hrecent.
  intros Hchange. repeat split; try assumption.
  now apply adjust_change.
Qed.

End TunerFacts.

Lemma update_change_throttled_witness :
  PerformanceManager.resolutionScale (PerformanceManager.update JS.exact 3000 Samples.slow) <> PerformanceManager.resolutionScale Samples.slow
  /\ PerformanceManager.lastResolutionChangeTime (PerformanceManager.update JS.exact 3000 Samples.slow) = 3000%Q.
Proof.
  assert (H : PerformanceManager.resolutionScale (PerformanceManager.update JS.exact 3000 Samples.slow)
              <> PerformanceManager.resolutionScale Samples.slow) by (vm_compute; discriminate).
  split; [exact H |].
  exact (proj2 (proj2 (proj2 (update_change_throttled JS.exact 3000 Samples.slow H)))).
Defined.


Section TunerCounting.
Import PerformanceManager.
Variable fl : JS.Rounding.

(** Updates that take no sample only count the frame. *)
Lemma counting_updates (nows : list Q) (pm : t) :
  isEnabled pm = true ->
  Forall (fun time => (JS.rnd fl (time - lastFpsTime pm) < 1000)%Q) nows ->
  run fl (List.map Update nows) pm =
  {| lastFpsTime := lastFpsTime pm;
     frameCount := frameCount pm + Z.of_nat (length nows);
     currentFps := currentFps pm;
     targetFps := targetFps pm;
     resolutionScale := resolutionScale pm;
     fpsHistory := fpsHistory pm;
     isEnabled := isEnabled pm;
     lastResolutionChangeTime := lastResolutionChangeTime pm |}.
Proof.
  unfold run. intros Hon Hall. revert pm Hon Hall.
  induction nows as [| time nows IH]; intros pm Hon Hall.
  - simpl. rewrite Z.add_0_r. now destruct pm.
  - apply Forall_cons in Hall as [Htime Hall].
    change (fold_left (fun pm0 c => call fl c pm0) (List.map Update (time :: nows)) pm)
      with (fold_left (fun pm0 c => call fl c pm0) (List.map Update nows) (update fl time pm)).
    assert (Hstep : update fl time pm =
                    {| lastFpsTime := lastFpsTime pm;
                       frameCount := frameCount pm + 1;
                       currentFps := currentFps pm;
                       targetFps := targetFps pm;
                       resolutionScale := resolutionScale pm;
                       fpsHistory := fpsHistory pm;
                       isEnabled := isEnabled pm;
                       lastResolutionChangeTime := lastResolutionChangeTime pm |}).
    { unfold update. rewrite Hon. simpl.
      replace (Qle_bool 1000 (JS.rnd fl (time - lastFpsTime pm))) with false; [reflexivity |].
      symmetry. apply not_true_iff_false. rewrite Qle_bool_iff. lra. }
    rewrite Hstep. rewrite IH; simpl; [| exact Hon | exact Hall].
    f_equal. rewrite Nat2Z.inj_succ. lia.
Qed.

Lemma record_fps_last (fps : JS.number) (h : list JS.number) :
  last (record_fps fps h) = Some fps.
Proof.
  unfold record_fps. destruct h as [| x h]; [reflexivity |].
  destruct (_ <? _)%nat; [| apply last_snoc]. simpl. apply last_snoc.
Qed.

(** The frame rate a sample records is the number of calls of [update]
    since the sample before, the sampling call included, whatever time they
    took; the count then starts again from zero and the sample is the
    newest entry of the history. *)
Theorem currentFps_counts_updates (nows : list Q) (now : Q) (pm : t) :
  isEnabled pm = true ->
  Forall (fun time => (JS.rnd fl (time - lastFpsTime pm) < 1000)%Q) nows ->
  (1000 <= JS.rnd fl (now - lastFpsTime pm))%Q ->
  currentFps (update fl now (run fl (List.map Update nows) pm))
    = JS.of_Z (frameCount pm + Z.of_nat (length nows) + 1)
  /\ frameCount (update fl now (run fl (List.map Update nows) pm)) = 0%Z
  /\ lastFpsTime (update fl now (run fl (List.map Update nows) pm)) = now
  /\ last (fpsHistory (update fl now (run fl (List.map Update nows) pm)))
     = Some (JS.of_Z (frameCount pm + Z.of_nat (length nows) + 1)).
Proof.
  intros Hon Hall Hsample. rewrite (counting_updates nows pm Hon Hall).
  unfold update. simpl. rewrite Hon. simpl.
  apply Qle_bool_iff in Hsample. rewrite Hsample.
  destruct (JS.Qltb _ _); simpl.
  - repeat split; try reflexivity. apply record_fps_last.
  - match goal with
    | |- context [adjust fl ?a now ?p] =>
        destruct (adjust_fields fl a now p) as (-> & -> & -> & -> & _)
    end.
    simpl. repeat split; try reflexivity. apply record_fps_last.
Qed.

(** A scale that is [NaN] stays [NaN] through [update], [setTargetFps]
    and [setEnabled(true)], however often they are called. *)
Theorem NaN_scale_stays (cs : list Call) (pm : t) :
  resolutionScale pm = JS.NaN ->
  Forall (fun c => match c with
                   | Update _ | SetTargetFps _ | SetEnabled true => True
                   | _ => False
                   end) cs ->
  resolutionScale (run fl cs pm) = JS.NaN.
Proof.
  unfold run. intros Hnan Hcs. revert pm Hnan.
  induction Hcs as [| c cs Hc _ IH]; intros pm Hnan; simpl; [exact Hnan |].
  apply IH. destruct c as [now | fps | [|] | scale now]; simpl; try contradiction;
    try exact Hnan.
  unfold update. destruct (negb _); [exact Hnan |].
  destruct (Qle_bool _ _); [| exact Hnan].
  destruct (JS.Qltb _ _); [exact Hnan |].
  unfold adjust. simpl. rewrite Hnan. simpl.
  destruct (JS.lt _ LOW_FPS_THRESHOLD); [reflexivity |].
  rewrite andb_false_r. reflexivity.
Qed.

End TunerCounting.

Lemma currentFps_counts_updates_witness :
  PerformanceManager.currentFps
    (PerformanceManager.update JS.exact 1001
       (PerformanceManager.run JS.exact
          (List.map PerformanceManager.Update [16; 33; 50; 990]%Q) PerformanceManager.new))
  = JS.of_Z 5.
Proof.
  refine (proj1 (currentFps_counts_updates JS.exact [16; 33; 50; 990]%Q 1001
                   PerformanceManager.new eq_refl _ _)).
  - repeat constructor; vm_compute; reflexivity.
  - vm_compute. discriminate.
Defined.

Lemma NaN_scale_stays_witness :
  PerformanceManager.resolutionScale Samples.spoilt = JS.NaN
  /\ PerformanceManager.resolutionScale
       (PerformanceManager.run JS.exact
          [PerformanceManager.Update 3000; PerformanceManager.SetEnabled true;
           PerformanceManager.Update 9000] Samples.spoilt) = JS.NaN.
Proof.
  split; [reflexivity |].
  apply (NaN_scale_stays JS.exact); [reflexivity |].
  repeat constructor.
Defined.

(** ** The name the start menu hands on *)

Section TrimmedName.
Import StartMenu.

Lemma trimStart_snoc (l : JS.string) (c : N) :
  JS.isWhiteSpace c = false -> JS.trimStart (l ++ [c]) = JS.trimStart l ++ [c].
Proof.
  intros Hc. induction l as [| a l IH]; simpl.
  - now rewrite Hc.
  - destruct (JS.isWhiteSpace a); [exact IH | reflexivity].
Qed.

Lemma trimStart_fixed (s : JS.string) :
  (forall c r, s = c :: r -> JS.isWhiteSpace c = false) -> JS.trimStart s = s.
Proof.
  destruct s as [| c r]; [reflexivity |]. intros H. simpl.
  now rewrite (H c r eq_refl).
Qed.

Lemma trim_head (s : JS.string) (c : N) (r : JS.string) :
  JS.trim s = c :: r -> JS.isWhiteSpace c = false.
Proof.
  unfold JS.trim, JS.trimEnd.
  destruct (trimStart_split s) as (_ & _ & _ & Hhd).
  destruct (JS.trimStart s) as [| c0 t0]; [discriminate |].
  pose proof (Hhd c0 t0 eq_refl) as Hc0.
  simpl. rewrite (trimStart_snoc _ _ Hc0), rev_app_distr. simpl.
  now intros [= <- _].
Qed.

Lemma trim_last (s : JS.string) (c : N) (r : JS.string) :
  JS.trim s = r ++ [c] -> JS.isWhiteSpace c = false.
Proof.
  unfold JS.trim, JS.trimEnd. intros H.
  destruct (trimStart_split (rev (JS.trimStart s))) as (_ & _ & _ & Hhd).
  apply (Hhd c (rev r)).
  rewrite <- (rev_involutive (JS.trimStart (rev (JS.trimStart s)))), H.
  now rewrite rev_app_distr.
Qed.

Lemma trim_fixed (s : JS.string) :
  (forall c r, s = c :: r -> JS.isWhiteSpace c = false) ->
  (forall c r, s = r ++ [c] -> JS.isWhiteSpace c = false) ->
  JS.trim s = s.
Proof.
  intros Hhd Hlast. unfold JS.trim, JS.trimEnd.
  rewrite (trimStart_fixed s Hhd), trimStart_fixed; [apply rev_involutive |].
  intros c r Hr. apply (Hlast c (rev r)).
  rewrite <- (rev_involutive s), Hr. reflexivity.
Qed.

(** The name handed to [onStart] is the input less the white space at its
    two ends: it neither starts nor ends with white space, and submitting
    it again hands on the very same name. *)
Theorem handleSubmit_trimmed (playerName name : JS.string) :
  In (OnStart name) (handleSubmit playerName) ->
  (exists pre post,
      playerName = pre ++ name ++ post
      /\ forallb JS.isWhiteSpace pre = true
      /\ forallb JS.isWhiteSpace post = true)
  /\ (forall c r, name = c :: r -> JS.isWhiteSpace c = false)
  /\ (forall c r, name = r ++ [c] -> JS.isWhiteSpace c = false)
  /\ handleSubmit name = [PreventDefault; OnStart name].
Proof.
  unfold handleSubmit at 1. intros [H | H]; [discriminate |].
  destruct (JS.trim playerName) as [| c0 r0] eqn:Ht; simpl in H; [destruct H |].
  destruct H as [[= <-] | []]. rewrite <- Ht.
  assert (Hhd : forall c r, JS.trim playerName = c :: r -> JS.isWhiteSpace c = false)
    by apply trim_head.
  assert (Hlast : forall c r, JS.trim playerName = r ++ [c] -> JS.isWhiteSpace c = false)
    by apply trim_last.
  split; [apply trim_split |]. split; [exact Hhd |]. split; [exact Hlast |].
  unfold handleSubmit. rewrite (trim_fixed _ Hhd Hlast), Ht. reflexivity.
Qed.

End TrimmedName.

Lemma handleSubmit_trimmed_witness :
  In (StartMenu.OnStart (JS.str "Kevin Flynn"))
     (StartMenu.handleSubmit (JS.str "  Kevin Flynn "))
  /\ StartMenu.handleSubmit (JS.str "Kevin Flynn")
     = [StartMenu.PreventDefault; StartMenu.OnStart (JS.str "Kevin Flynn")].
Proof.
  assert (H : In (StartMenu.OnStart (JS.str "Kevin Flynn"))
                 (StartMenu.handleSubmit (JS.str "  Kevin Flynn ")))
    by (right; left; reflexivity).
  split; [exact H |].
  exact (proj2 (proj2 (proj2 (handleSubmit_trimmed _ _ H)))).
Defined.

(** ** The calls of a frame *)

Section FrameFacts.
Import GameRenderer FrameEffects.
Variable fl : JS.Rounding.
Variable advance : Q -> option Vector3.t -> MultiplayerManager.RemotePlayer ->
                   MultiplayerManager.RemotePlayer.
Variable gameClient : GameClient.

Local Abbreviation run := (GameRenderer.run fl advance gameClient).
Local Abbreviation useFrame := (GameRenderer.useFrame fl advance).

(** Each collaborator is called at most once in a frame, and in the order
    of the text: the camera first, then the manager's local position, the
    position callback, the send, the enemy list, and the manager's [update]
    last. *)
Theorem frame_calls_in_order (f : Frame) (g : t) :
  StronglySorted lt (List.map rank (snd (useFrame f g))).
Proof.
  unfold GameRenderer.useFrame, withPlayerPos.
  destruct (playerPos f) as [p |]; simpl.
  - destruct (cameraController g), (multiplayerManager g),
      (JS.Qltb updateInterval _), (JS.Qltb enemyUpdateInterval _); simpl;
      repeat constructor; lia.
  - destruct (cameraController g), (multiplayerManager g); simpl;
      repeat constructor; lia.
Qed.

Lemma useFrame_position_update (f : Frame) (g : t) :
  List.filter isPositionUpdate (snd (useFrame f g)) =
  match playerPos f with
  | Some p => [OnPositionUpdate p (Vector2.of3 <$> trails f)]
  | None => []
  end
  /\ (playerPos f = None ->
      existsb isSend (snd (useFrame f g)) = false
      /\ existsb isRefresh (snd (useFrame f g)) = false).
Proof.
  unfold GameRenderer.useFrame, withPlayerPos.
  destruct (playerPos f) as [p |]; simpl.
  - split; [| discriminate].
    destruct (cameraController g), (multiplayerManager g),
      (JS.Qltb updateInterval _), (JS.Qltb enemyUpdateInterval _); reflexivity.
  - split; [| intros _]; destruct (cameraController g), (multiplayerManager g);
      simpl; auto.
Qed.

(** The position callback is not throttled: in any run, a frame in which
    the game has a player position calls [onPositionUpdate] exactly once,
    with that position and the trail projected on the ground plane; a frame
    in which it has none calls it not at all, sends nothing and refreshes
    nothing. *)
Theorem position_callback_every_frame (evs : list Event) (g : t) :
  Forall (fun entry =>
            match entry with
            | (Tick f, es) =>
                List.filter isPositionUpdate es =
                match playerPos f with
                | Some p => [OnPositionUpdate p (Vector2.of3 <$> trails f)]
                | None => []
                end
                /\ (playerPos f = None ->
                    existsb isSend es = false /\ existsb isRefresh es = false)
            | (Message _, es) => es = []
            end)
         (snd (run evs g)).
Proof.
  revert g. induction evs as [| ev evs IH]; intros g; [constructor |].
  rewrite run_cons. simpl. constructor; [| apply IH].
  destruct ev as [m | f]; simpl; [reflexivity | apply useFrame_position_update].
Qed.

(** The throttle does not starve the server: a frame in which the game
    has a player position and the clock is a whole number of milliseconds
    above 100, or more, past [lastUpdateTime] sends the update, and what any
    frame sends is the position and the rotation read in that frame. *)
Theorem overdue_position_is_sent (f : Frame) (g : t) (p : Vector3.t) (z : Z) :
  playerPos f = Some p ->
  (100 < z <= 2 ^ 53)%Z ->
  (inject_Z z <= now f - lastUpdateTime g)%Q ->
  List.filter isSend (snd (useFrame f g))
    = [UpdatePosition (Vector3.x p) (Vector3.y p) (Vector3.z p) (playerRotation f)]
  /\ lastUpdateTime (fst (useFrame f g)) = now f.
Proof.
  intros Hp Hz Hgap.
  assert (Hsend : JS.Qltb updateInterval (JS.rnd fl (now f - lastUpdateTime g)) = true).
  { apply Qltb_true. unfold updateInterval.
    assert (Hr : (inject_Z z <= JS.rnd fl (now f - lastUpdateTime g))%Q)
      by (apply rnd_Z_ge; [lia | exact Hgap]).
    assert (Hz' : (100 < inject_Z z)%Q).
    { change 100%Q with (inject_Z 100). rewrite <- Zlt_Qlt. lia. }
    lra. }
  unfold GameRenderer.useFrame, withPlayerPos. rewrite Hp. simpl. rewrite Hsend.
  split; [| reflexivity].
  destruct (cameraController g), (multiplayerManager g),
    (JS.Qltb enemyUpdateInterval _); reflexivity.
Qed.

(** A snapshot in which every entry is the local player's or is without a
    position leaves the renderer as it is. *)
Theorem game_state_without_news (players : list (JS.string * PlayerEntry)) (g : t) :
  Forall (fun entry => position (snd entry) = None
                       \/ Some (fst entry) = getPlayerId gameClient) players ->
  on_game_state gameClient players g = g.
Proof.
  unfold on_game_state. induction 1 as [| [id [pos]] players Hentry _ IH]; [reflexivity |].
  simpl in *. destruct pos as [p |]; [| exact IH].
  destruct Hentry as [Hnone | Hlocal]; [discriminate |].
  rewrite bool_decide_eq_true_2 by exact Hlocal. exact IH.
Qed.

(** A run goes on from where its first part stops. *)
Lemma run_app (evs evs' : list Event) (g : t) :
  snd (run (evs ++ evs') g) = snd (run evs g) ++ snd (run evs' (fst (run evs g))).
Proof.
  revert g. induction evs as [| ev evs IH]; intros g; [reflexivity |].
  rewrite <- app_comm_cons, !run_cons. simpl. now rewrite IH.
Qed.

Lemma dispatch_frame (f : Frame) (g : t) (h : Hud.t) :
  match playerPos f with
  | Some p =>
      Hud.playerPosition (fold_left Hud.dispatch (snd (useFrame f g)) h) = p
      /\ Hud.trailPoints (fold_left Hud.dispatch (snd (useFrame f g)) h)
         = Vector2.of3 <$> trails f
  | None => fold_left Hud.dispatch (snd (useFrame f g)) h = h
  end.
Proof.
  unfold GameRenderer.useFrame, withPlayerPos.
  destruct (playerPos f) as [p |]; simpl.
  - destruct (cameraController g), (multiplayerManager g),
      (JS.Qltb updateInterval _), (JS.Qltb enemyUpdateInterval _); simpl;
      split; reflexivity.
  - destruct (cameraController g), (multiplayerManager g); reflexivity.
Qed.

(** The minimap is never behind on the player: after any run, the
    position and the trail among the scene's cells are those of the last
    frame in which the game had a player position, whatever messages and
    frames without one came after it. *)
Theorem hud_shows_latest_position
    (evs evs' : list Event) (f : Frame) (p : Vector3.t) (g : t) (h : Hud.t) :
  playerPos f = Some p ->
  Forall (fun ev => match ev with
                    | Tick f' => playerPos f' = None
                    | Message _ => True
                    end) evs' ->
  Hud.playerPosition (Hud.display (snd (run (evs ++ Tick f :: evs') g)) h) = p
  /\ Hud.trailPoints (Hud.display (snd (run (evs ++ Tick f :: evs') g)) h)
     = Vector2.of3 <$> trails f.
Proof.
  intros Hp Hquiet. rewrite run_app. unfold Hud.display. rewrite fold_left_app.
  generalize (fold_left (fun h0 entry => fold_left Hud.dispatch (snd entry) h0)
                (snd (run evs g)) h) as h1.
  generalize (fst (run evs g)) as g1. intros g1 h1.
  rewrite run_cons. simpl.
  pose proof (dispatch_frame f g1 h1) as Hf. rewrite Hp in Hf.
  revert Hf.
  generalize (fold_left Hud.dispatch (snd (useFrame f g1)) h1) as h2.
  generalize (fst (useFrame f g1)) as g2.
  induction Hquiet as [| ev evs' Hev _ IH]; intros g2 h2 Hh2; [exact Hh2 |].
  rewrite run_cons. simpl. apply IH.
  destruct ev as [m | f']; simpl; [exact Hh2 |].
  pose proof (dispatch_frame f' g2 h2) as Hf'. rewrite Hev in Hf'.
  now rewrite Hf'.
Qed.

End FrameFacts.

Lemma overdue_position_is_sent_witness :
  List.filter GameRenderer.isSend
    (snd (GameRenderer.useFrame JS.exact Examples.still (Examples.moving 150)
            Examples.mounted))
  = [GameRenderer.UpdatePosition 0 0 0 (Some 0%Q)].
Proof.
  refine (proj1 (overdue_position_is_sent JS.exact Examples.still (Examples.moving 150)
                   Examples.mounted MultiplayerManager.origin 150 eq_refl _ _)).
  - lia.
  - vm_compute. discriminate.
Defined.

Lemma game_state_without_news_witness :
  GameRenderer.on_game_state Examples.client
    [(Examples.flynn, {| GameRenderer.position := Some (Examples.at_ 3 4) |});
     (Examples.clu, {| GameRenderer.position := None |})] Examples.mounted
  = Examples.mounted.
Proof.
  apply game_state_without_news.
  constructor; [right; reflexivity |].
  constructor; [left; reflexivity | constructor].
Defined.

Lemma hud_shows_latest_position_witness :
  Hud.playerPosition
    (Hud.display
       (snd (GameRenderer.run JS.exact Examples.still Examples.client
               ([GameRenderer.Tick (Examples.idle 16)]
                  ++ GameRenderer.Tick (Examples.moving 250)
                  :: [GameRenderer.Message (GameRenderer.PlayerJoined Examples.clu);
                      GameRenderer.Tick (Examples.idle 266)])
               Examples.mounted))
       Hud.initial)
  = MultiplayerManager.origin.
Proof.
  refine (proj1 (hud_shows_latest_position JS.exact Examples.still Examples.client
                   _ _ (Examples.moving 250) MultiplayerManager.origin
                   Examples.mounted Hud.initial eq_refl _)).
  repeat constructor.
Defined.

(** ** Starting, failing and starting again *)

Section StartFacts.
Import GameScene GameSceneView.
Variable getArenaSize : TronGame -> Q.

(** A failed attempt leaves nothing behind that a later attempt would
    notice: the later attempt ends in the same state, by the same calls, as
    if the failed one had not taken place. *)
Theorem failed_attempt_leaves_no_trace
    (name name' : JS.string) (error : JS.string) (result : ConnectResult) (s : t) :
  handleGameStart getArenaSize name' result
    (fst (handleGameStart getArenaSize name (Failed error) s))
  = handleGameStart getArenaSize name' result s.
Proof.
  destruct result as [playerId | error']; simpl; [| reflexivity].
  destruct (scene s); reflexivity.
Qed.

(** What is on screen after an attempt made from the start menu.  After a
    failure the menu is still there and nothing else.  After a success the
    menu is gone and the minimap is shown, but the renderer is mounted only
    if the canvas had been created by then: if it had not, no game exists,
    and the canvas being created afterwards does not bring one.  Either
    way there is a client for the scene's clean-up to disconnect. *)
Theorem screen_after_attempt (name : JS.string) (result : ConnectResult) (s : t) :
  gameStarted s = false ->
  game s = None ->
  unmount (fst (handleGameStart getArenaSize name result s)) <> []
  /\ match result with
     | Connected _ =>
         rendersStartMenu (fst (handleGameStart getArenaSize name result s)) = false
         /\ rendersMinimap (fst (handleGameStart getArenaSize name result s)) = true
         /\ rendersGameRenderer (fst (handleGameStart getArenaSize name result s)) = scene s
         /\ (scene s = false ->
             rendersGameRenderer
               (onCreated (fst (handleGameStart getArenaSize name result s))) = false)
     | Failed _ =>
         rendersStartMenu (fst (handleGameStart getArenaSize name result s)) = true
         /\ rendersMinimap (fst (handleGameStart getArenaSize name result s)) = false
         /\ rendersGameRenderer (fst (handleGameStart getArenaSize name result s)) = false
     end.
Proof.
  intros Hnot Hgame. destruct result as [playerId | error]; simpl.
  - destruct (scene s) eqn:Hscene; simpl.
    + repeat split; try discriminate.
    + unfold rendersGameRenderer. simpl. rewrite Hgame.
      repeat split; try discriminate.
  - unfold rendersStartMenu, rendersMinimap, rendersGameRenderer. simpl.
    rewrite Hnot. repeat split. discriminate.
Qed.

(** On a successful connection the later [handleGameStart] does what the
    earlier one did, between the creation of the client and the setting of
    the arena size, which it adds. *)
Theorem later_start_extends_earlier (name playerId : JS.string) (s : t) :
  gameStarted (fst (handleGameStart getArenaSize name (Connected playerId) s))
    = gameStarted (fst (GameSceneV1.handleGameStart name s))
  /\ playerName (fst (handleGameStart getArenaSize name (Connected playerId) s))
     = playerName (fst (GameSceneV1.handleGameStart name s))
  /\ game (fst (handleGameStart getArenaSize name (Connected playerId) s))
     = game (fst (GameSceneV1.handleGameStart name s))
  /\ snd (handleGameStart getArenaSize name (Connected playerId) s)
     = [NewGameClient; Connect name]
         ++ snd (GameSceneV1.handleGameStart name s)
         ++ (if scene s then [SetArenaSize (getArenaSize {| startedAs := name |})] else []).
Proof.
  unfold GameSceneV1.handleGameStart. simpl. destruct (scene s); simpl; repeat split.
Qed.

End StartFacts.

Lemma screen_after_attempt_witness :
  GameSceneView.rendersStartMenu
    (fst (GameScene.handleGameStart (fun _ => 500%Q) Examples.flynn
            (GameScene.Connected Examples.flynn) GameScene.initial)) = false
  /\ GameSceneView.rendersGameRenderer
       (fst (GameScene.handleGameStart (fun _ => 500%Q) Examples.flynn
               (GameScene.Connected Examples.flynn) GameScene.initial)) = false.
Proof.
  destruct (screen_after_attempt (fun _ => 500%Q) Examples.flynn
              (GameScene.Connected Examples.flynn) GameScene.initial eq_refl eq_refl)
    as (_ & Hmenu & _ & Hrenderer & _).
  split; [exact Hmenu | exact Hrenderer].
Defined.

(** ** The pattern texture *)

Section TextureFacts.
Import Ground.
Variable fl : JS.Rounding.

(** [(i ^ j) % 16] is zero exactly when [i] and [j] agree modulo 16. *)
Lemma lxor_mod_pow2 (a b n : Z) :
  (0 <= n)%Z -> (Z.lxor a b mod 2 ^ n = Z.lxor (a mod 2 ^ n) (b mod 2 ^ n))%Z.
Proof.
  intros Hn. apply Z.bits_inj'. intros k Hk.
  rewrite Z.lxor_spec, !Z.testbit_mod_pow2, Z.lxor_spec by exact Hn.
  destruct (k <? n)%Z; reflexivity.
Qed.

Lemma hex_stripes (i j : nat) :
  hex i j = if (i mod 16 =? j mod 16)%nat then 255%Z else 0%Z.
Proof.
  unfold hex.
  assert (Hxor : (0 <= Z.lxor (Z.of_nat i) (Z.of_nat j))%Z)
    by (apply Z.lxor_nonneg; lia).
  rewrite Z.rem_mod_nonneg by lia.
  change 16%Z with (2 ^ 4)%Z. rewrite lxor_mod_pow2 by lia.
  change (2 ^ 4)%Z with (Z.of_nat 16). rewrite <- !Nat2Z.inj_mod.
  destruct (Nat.eqb_spec (i mod 16) (j mod 16)) as [-> | Hne].
  - now rewrite Z.lxor_nilpotent.
  - destruct (Z.eqb_spec (Z.lxor (Z.of_nat (i mod 16)) (Z.of_nat (j mod 16))) 0)
      as [H0 | _]; [| reflexivity].
    apply Z.lxor_eq in H0. lia.
Qed.

Lemma rnd_Qeq (a b : Q) : (a == b)%Q -> (JS.rnd fl a == JS.rnd fl b)%Q.
Proof.
  intros H. apply Qle_antisym; apply JS.rnd_mono; rewrite H; apply Qle_refl.
Qed.

(** A dark pixel stays dark whatever it is multiplied by. *)
Lemma toUint8_dark (c : Q) : toUint8 (JS.mul fl (JS.of_Z 0) (JS.Fin c)) = 0%Z.
Proof.
  simpl.
  assert (H : (JS.rnd fl (inject_Z 0 * c) == 0)%Q).
  { rewrite (rnd_Qeq (inject_Z 0 * c) (inject_Z 0)) by (unfold inject_Z; lra).
    apply (JS.rnd_int fl 0). vm_compute. discriminate. }
  replace (Qle_bool 0 (JS.rnd fl (inject_Z 0 * c))) with true
    by (symmetry; apply Qle_bool_iff; rewrite H; apply Qle_refl).
  now rewrite H.
Qed.

Lemma length_writePixel (data : list Z) (i j : nat) :
  length (writePixel fl data i j) = length data.
Proof. unfold writePixel. now rewrite !length_insert. Qed.

(** The four bytes a pixel's turn of the loop leaves. *)
Lemma writePixel_own (data : list Z) (i j : nat) :
  (i * size + j) * 4 + 3 < length data ->
  writePixel fl data i j !! ((i * size + j) * 4 + 3) = Some 255%Z
  /\ writePixel fl data i j !! ((i * size + j) * 4 + 2) = Some (toUint8 (JS.of_Z (hex i j)))
  /\ writePixel fl data i j !! ((i * size + j) * 4 + 1)
     = Some (toUint8 (JS.mul fl (JS.of_Z (hex i j)) (JS.Fin (JS.rnd fl (6 # 10)))))
  /\ writePixel fl data i j !! ((i * size + j) * 4)
     = Some (toUint8 (JS.mul fl (JS.of_Z (hex i j)) (JS.Fin (JS.rnd fl (1 # 10))))).
Proof.
  unfold writePixel. generalize ((i * size + j) * 4) as b. intros b Hb.
  repeat split.
  - rewrite list_lookup_insert_eq; [reflexivity | rewrite !length_insert; lia].
  - rewrite list_lookup_insert_ne by lia.
    rewrite list_lookup_insert_eq; [reflexivity | rewrite !length_insert; lia].
  - rewrite !list_lookup_insert_ne by lia.
    rewrite list_lookup_insert_eq; [reflexivity | rewrite !length_insert; lia].
  - rewrite !list_lookup_insert_ne by lia.
    rewrite list_lookup_insert_eq; [reflexivity | lia].
Qed.

(** It leaves every other byte alone. *)
Lemma writePixel_other (data : list Z) (i j k : nat) :
  (k < (i * size + j) * 4 \/ (i * size + j) * 4 + 3 < k) ->
  writePixel fl data i j !! k = data !! k.
Proof.
  unfold writePixel. generalize ((i * size + j) * 4) as b. intros b Hk.
  now rewrite !list_lookup_insert_ne by lia.
Qed.

(** Two pixels of the image have no byte in common. *)
Lemma pixels_apart (i j i' j' c : nat) :
  j < size -> j' < size -> c < 4 -> (i', j') <> (i, j) ->
  (i * size + j) * 4 + c < (i' * size + j') * 4
  \/ (i' * size + j') * 4 + 3 < (i * size + j) * 4 + c.
Proof.
  intros Hj Hj' Hc Hne.
  assert (Hidx : i' * size + j' <> i * size + j).
  { intros Heq. apply Hne.
    assert (i' = i) by nia. subst i'. f_equal. lia. }
  lia.
Qed.

Local Abbreviation writeAll :=
  (fold_left (fun data (p : nat * nat) => writePixel fl data (fst p) (snd p))).

Lemma length_writeAll (ps : list (nat * nat)) (data : list Z) :
  length (writeAll ps data) = length data.
Proof.
  revert data. induction ps as [| p ps IH]; intros data; simpl; [reflexivity |].
  now rewrite IH, length_writePixel.
Qed.

Lemma writeAll_other (ps : list (nat * nat)) (data : list Z) (i j c : nat) :
  j < size -> c < 4 ->
  Forall (fun p => snd p < size) ps ->
  ~ In (i, j) ps ->
  writeAll ps data !! ((i * size + j) * 4 + c) = data !! ((i * size + j) * 4 + c).
Proof.
  intros Hj Hc Hps. revert data.
  induction Hps as [| [i' j'] ps Hp _ IH]; intros data Hnotin; simpl; [reflexivity |].
  rewrite IH by (intros Hin; apply Hnotin; now right).
  apply writePixel_other, pixels_apart; try assumption.
  intros Heq. apply Hnotin. now left.
Qed.

Lemma writeAll_own (ps : list (nat * nat)) (data : list Z) (i j : nat) :
  j < size ->
  Forall (fun p => snd p < size) ps ->
  In (i, j) ps ->
  (i * size + j) * 4 + 3 < length data ->
  writeAll ps data !! ((i * size + j) * 4 + 3) = Some 255%Z
  /\ writeAll ps data !! ((i * size + j) * 4 + 2) = Some (toUint8 (JS.of_Z (hex i j)))
  /\ writeAll ps data !! ((i * size + j) * 4 + 1)
     = Some (toUint8 (JS.mul fl (JS.of_Z (hex i j)) (JS.Fin (JS.rnd fl (6 # 10)))))
  /\ writeAll ps data !! ((i * size + j) * 4 + 0)
     = Some (toUint8 (JS.mul fl (JS.of_Z (hex i j)) (JS.Fin (JS.rnd fl (1 # 10))))).
Proof.
  intros Hj Hps. revert data.
  induction Hps as [| p ps Hp Hps IH]; intros data Hin Hlen; [destruct Hin |].
  simpl. destruct (decide ((i, j) ∈ ps)) as [Hlater | Hlast];
    rewrite list_elem_of_In in *.
  - apply IH; [exact Hlater | now rewrite length_writePixel].
  - destruct Hin as [-> | Hin]; [| contradiction]. simpl.
    rewrite !(writeAll_other ps _ i j) by (assumption || lia).
    rewrite Nat.add_0_r. now apply writePixel_own.
Qed.

(** The two loops visit the pixels row by row. *)
Lemma hexPattern_writeAll :
  hexPattern fl =
  writeAll (flat_map (fun i => List.map (pair i) (seq 0 size)) (seq 0 size))
           (replicate (size * size * 4) 0%Z).
Proof.
  unfold hexPattern. generalize (replicate (size * size * 4) 0%Z) as data.
  generalize (seq 0 size) at 2 4 as rows. generalize (seq 0 size) as cols.
  intros cols rows. induction rows as [| i rows IH]; intros data; [reflexivity |].
  cbn [fold_left flat_map]. rewrite fold_left_app, <- IH. f_equal.
  clear IH. revert data.
  induction cols as [| j cols IHc]; intros data; [reflexivity | apply IHc].
Qed.

(** The texture is [size * size * 4] bytes long and every pixel of it is
    written: its alpha byte is 255; its blue byte is 255 where the row and
    the column agree modulo 16 and 0 elsewhere, which makes diagonal
    stripes; off the stripes its red and green bytes are 0 as well. *)
Theorem hexPattern_stripes (i j : nat) :
  i < size -> j < size ->
  length (hexPattern fl) = size * size * 4
  /\ hexPattern fl !! ((i * size + j) * 4 + 3) = Some 255%Z
  /\ hexPattern fl !! ((i * size + j) * 4 + 2)
     = Some (if (i mod 16 =? j mod 16)%nat then 255%Z else 0%Z)
  /\ (i mod 16 <> j mod 16 ->
      hexPattern fl !! ((i * size + j) * 4 + 1) = Some 0%Z
      /\ hexPattern fl !! ((i * size + j) * 4 + 0) = Some 0%Z).
Proof.
  intros Hi Hj. rewrite hexPattern_writeAll.
  assert (Hlen : length (replicate (size * size * 4) 0%Z) = size * size * 4)
    by apply length_replicate.
  destruct (writeAll_own
              (flat_map (fun i => List.map (pair i) (seq 0 size)) (seq 0 size))
              (replicate (size * size * 4) 0%Z) i j Hj)
    as (Ha & Hb & Hg & Hr).
  - apply List.Forall_forall. intros [i' j'] Hin.
    apply in_flat_map in Hin as (i0 & _ & Hin).
    apply in_map_iff in Hin as (j0 & [= <- <-] & Hj0).
    apply in_seq in Hj0. simpl. lia.
  - apply in_flat_map. exists i. split; [apply in_seq; lia |].
    apply in_map_iff. exists j. split; [reflexivity | apply in_seq; lia].
  - rewrite Hlen. nia.
  - split; [rewrite length_writeAll; exact Hlen |]. split; [exact Ha |].
    rewrite Hb, Hg, Hr, hex_stripes.
    destruct (Nat.eqb_spec (i mod 16) (j mod 16)) as [Heq | Hne].
    + split; [reflexivity | contradiction].
    + split; [reflexivity |]. intros _. rewrite !toUint8_dark. split; reflexivity.
Qed.

End TextureFacts.

Lemma hexPattern_stripes_witness :
  Ground.hexPattern JS.exact !! ((3 * Ground.size + 19) * 4 + 2) = Some 255%Z
  /\ Ground.hexPattern JS.exact !! ((3 * Ground.size + 20) * 4 + 2) = Some 0%Z.
Proof.
  assert (H3 : 3 < Ground.size) by (unfold Ground.size; lia).
  assert (H19 : 19 < Ground.size) by (unfold Ground.size; lia).
  assert (H20 : 20 < Ground.size) by (unfold Ground.size; lia).
  split.
  - exact (proj1 (proj2 (proj2 (hexPattern_stripes JS.exact 3 19 H3 H19)))).
  - exact (proj1 (proj2 (proj2 (hexPattern_stripes JS.exact 3 20 H3 H20)))).
Defined.
